(** * gpglib: the packet content decryption engine

    A shallow embedding of [gpglib/content_parsers/crypt.py]: the algorithm
    registry ([Mapping], [Algorithms], [Compression]), the MPI reader
    ([Mpi.parse]) with the per-algorithm layouts, and the PKCS#1 v1.5
    unpadding of the session key ([PKCS.consume]).
    Further down, [gpglib/utils.py]: [dump] and the [ValueTracker].

    The program is Python 2 ([print] statements in [gpglib.py], integer [/],
    [str] used as bytes).  It drives three libraries that are not part of the
    repository: [bitstring] (bit cursors), PyCrypto ([key.decrypt],
    [Random]) and [zlib].  [bitstring] is modelled from its documented
    behaviour at bit granularity; the two others are parameters. *)

From Stdlib Require Import ZArith Strings.Byte DecimalString.
From stdpp Require Import base decidable numbers list strings gmap.
From Stdlib Require HexadecimalString.

Local Open Scope Z_scope.

(** ** Bytes and bits *)

(** A Python 2 [str] used as binary data is a [list byte]. *)

#[global] Instance byte_eq_decision : EqDecision byte := byte_eq_dec.

(** The eight bits of a byte, most significant first, as [bitstring] stores
    them. *)
Definition bits_of_byte (b : byte) : list bool :=
  let '(b0, (b1, (b2, (b3, (b4, (b5, (b6, b7))))))) := Byte.to_bits b in
  [b7; b6; b5; b4; b3; b2; b1; b0].

Definition bits_of_bytes (bs : list byte) : list bool :=
  concat (map bits_of_byte bs).

(** Whole bytes of a bit string whose length is a multiple of eight. *)
Fixpoint bytes_of_bits (l : list bool) : list byte :=
  match l with
  | b7 :: b6 :: b5 :: b4 :: b3 :: b2 :: b1 :: b0 :: l' =>
      Byte.of_bits (b0, (b1, (b2, (b3, (b4, (b5, (b6, b7))))))) :: bytes_of_bits l'
  | _ => []
  end.

(** Unsigned big-endian interpretation of a bit string ([uint]). *)
Definition uint_of_bits (l : list bool) : Z :=
  fold_left (fun acc (b : bool) => 2 * acc + (if b then 1 else 0)) l 0.

(** ** Python exceptions *)

Inductive Exception : Type :=
| ReadError                          (* bitstring.ReadError *)
| ByteAlignError                     (* bitstring.ByteAlignError *)
| InterpretError                     (* bitstring.InterpretError *)
| ValueError
| TypeError
| NotImplementedError (msg : string)
| PGPException (msg : string)        (* gpglib.errors.PGPException *)
| ForeignError (msg : string).       (* raised inside an external primitive *)

Inductive Outcome (A : Type) : Type :=
| Return (a : A)
| Raise (e : Exception).
Arguments Return {A} a.
Arguments Raise {A} e.

(** ** Computations over a mutable state that may raise

    A raised exception keeps the state reached at the point of the raise:
    the objects a Python function mutated before it raised stay mutated. *)

Definition Py (S A : Type) : Type := S -> Outcome A * S.

Definition ret {S A} (a : A) : Py S A := fun s => (Return a, s).
Definition raise {S A} (e : Exception) : Py S A := fun s => (Raise e, s).
Definition bind {S A B} (m : Py S A) (k : A -> Py S B) : Py S B :=
  fun s => match m s with
           | (Return a, s') => k a s'
           | (Raise e, s') => (Raise e, s')
           end.
Definition lift_outcome {S A} (o : Outcome A) : Py S A := fun s => (o, s).

Notation "'let!' x ':=' c 'in' k" := (bind c (fun x => k))
  (at level 10, x name, c at level 100, k at level 200).
Notation "'do!' c 'in' k" := (bind c (fun _ => k))
  (at level 10, c at level 100, k at level 200).

(** ** bitstring.ConstBitStream *)

Record ConstBitStream : Type := mkStream {
  bits : list bool;      (* the immutable data *)
  pos : nat              (* the read cursor, in bits *)
}.

(** [bitstring.ConstBitStream(bytes=bs)] *)
Definition ConstBitStream_of_bytes (bs : list byte) : ConstBitStream :=
  {| bits := bits_of_bytes bs; pos := 0 |}.

Module Stream.

(** Take the next [n] bits and advance, or raise [ReadError] when fewer
    remain; the cursor does not move on failure. *)
Definition read_bits (n : nat) : Py ConstBitStream (list bool) := fun s =>
  if decide (pos s + n <= length (bits s))%nat
  then (Return (take n (drop (pos s) (bits s))),
        {| bits := bits s; pos := (pos s + n)%nat |})
  else (Raise ReadError, s).

(** [s.read(n)] with an integer [n]: a new bit string of [n] bits. *)
Definition read (n : Z) : Py ConstBitStream ConstBitStream :=
  if decide (n < 0) then raise ValueError
  else let! l := read_bits (Z.to_nat n) in ret {| bits := l; pos := 0 |}.

(** [s.read('uint:n')] *)
Definition read_uint (n : nat) : Py ConstBitStream Z :=
  let! l := read_bits n in ret (uint_of_bits l).

(** [s.read('bytes:n')] *)
Definition read_bytes (n : nat) : Py ConstBitStream (list byte) :=
  let! l := read_bits (8 * n) in ret (bytes_of_bits l).

(** [s.read('bytes')]: everything up to the end. *)
Definition read_bytes_rest : Py ConstBitStream (list byte) := fun s =>
  (let! l := read_bits (length (bits s) - pos s) in ret (bytes_of_bits l)) s.

(** The [bytes] property: the whole bit string as bytes. *)
Definition to_bytes (s : ConstBitStream) : Outcome (list byte) :=
  if decide (length (bits s) mod 8 = 0)%nat
  then Return (bytes_of_bits (bits s))
  else Raise InterpretError.

(** First position at or after [p] (the position of the head of [l]) where
    [pat] starts, looking at byte boundaries only when [bytealigned]. *)
Fixpoint find_from (bytealigned : bool) (pat l : list bool) (p : nat)
  : option nat :=
  match l with
  | [] => None
  | _ :: l' =>
      if (negb bytealigned || (p mod 8 =? 0)%nat)
         && bool_decide (take (length pat) l = pat)
      then Some p
      else find_from bytealigned pat l' (S p)
  end.

(** [s.find(pat, bytealigned=...)]: with no [start] the whole bit string is
    searched, from bit 0.  On success the cursor is set to the match and
    [(p,)] is returned; on failure [()] is returned and the cursor stays. *)
Definition find (pat : list bool) (bytealigned : bool)
  : Py ConstBitStream (option nat) := fun s =>
  if decide (pat = []) then (Raise ValueError, s)
  else match find_from bytealigned pat (bits s) 0 with
       | Some p => (Return (Some p), {| bits := bits s; pos := p |})
       | None => (Return None, s)
       end.

(** The [bytepos] property. *)
Definition bytepos : Py ConstBitStream Z := fun s =>
  if decide (pos s mod 8 = 0)%nat
  then (Return (Z.of_nat (pos s / 8)), s)
  else (Raise ByteAlignError, s).

End Stream.

(** ** Python values that reach the dispatch code

    The algorithm handed to the layout functions is what the caller looked up
    in [Algorithms.keys]: one of the PyCrypto modules imported at the top of
    the file.  Nothing stops a caller from handing over the numeric code
    itself, so integers are values too. *)

Inductive PyModule : Type := RSA | DSA | ElGamal | SHA | SHA256 | CAST.

Inductive PyValue : Type :=
| VModule (m : PyModule)
| VInt (z : Z).

#[global] Instance PyModule_eq_dec : EqDecision PyModule.
Proof. solve_decision. Defined.
#[global] Instance PyValue_eq_dec : EqDecision PyValue.
Proof. solve_decision. Defined.

(** [a is b]: object identity.  Each module is one object. *)
Definition is_ (a : PyValue) (m : PyModule) : bool :=
  bool_decide (a = VModule m).

(** [str(z)] of an integer. *)
Definition str_int (z : Z) : string := NilZero.string_of_int (Z.to_int z).

(** ["%d" % v]: a number is required. *)
Definition format_d (v : PyValue) : Outcome string :=
  match v with
  | VInt z => Return (str_int z)
  | VModule _ => Raise TypeError
  end.

(** ** Mappings *)

(** [class Mapping]: item access to a dict that complains about keys it does
    not hold. *)
Record Mapping (V : Type) : Type := mkMapping {
  type : string;
  map : gmap Z V
}.
Arguments mkMapping {V} type map.
Arguments type {V} m.
Arguments map {V} m.

(** [Mapping.__getitem__] *)
Definition Mapping_getitem {V} (self : Mapping V) (key : Z) : Outcome V :=
  match map self !! key with
  | None =>
      Raise (NotImplementedError
               ("Haven't implemented " +:+ type self +:+ " : " +:+ str_int key))
  | Some v => Return v
  end.

Module Algorithms.

Definition encryption : Mapping PyModule :=
  mkMapping "Symmetric encryption algorithm" (<[3 := CAST]> ∅).

Definition hashes : Mapping PyModule :=
  mkMapping "Hash Algorithm" (<[2 := SHA]> (<[8 := SHA256]> ∅)).

Definition keys : Mapping PyModule :=
  mkMapping "Key algorithm"
    (<[1 := RSA]> (<[2 := RSA]> (<[3 := RSA]>
      (<[16 := ElGamal]> (<[17 := DSA]> ∅))))).

End Algorithms.

(** ** MPI values *)

Module Mpi.

(** [Mpi.parse(region)] *)
Definition parse : Py ConstBitStream ConstBitStream :=
  let! raw_mpi_length := Stream.read_uint 16 in
  let mpi_length := (raw_mpi_length + 7) / 8 in
  Stream.read (mpi_length * 8).

(** [raise errors.PGPException(prefix + "%d" % algorithm)]: the message is
    formatted before the exception object exists. *)
Definition raise_unknown {A} (prefix : string) (algorithm : PyValue)
  : Py ConstBitStream A :=
  let! shown := lift_outcome (format_d algorithm) in
  raise (PGPException (prefix +:+ shown)).

Definition rsa_mpis_public : Py ConstBitStream (list ConstBitStream) :=
  let! n := parse in
  let! e := parse in
  ret [n; e].

Definition rsa_mpis_private : Py ConstBitStream (list ConstBitStream) :=
  let! d := parse in
  let! p := parse in
  let! q := parse in
  let! r := parse in
  ret [d; p; q; r].

Definition elgamal_mpis_public : Py ConstBitStream (list ConstBitStream) :=
  let! p := parse in
  let! g := parse in
  let! y := parse in
  ret [p; g; y].

Definition elgamal_mpis_private : Py ConstBitStream (list ConstBitStream) :=
  let! x := parse in
  ret [x].

Definition dsa_mpis_public : Py ConstBitStream (list ConstBitStream) :=
  let! p := parse in
  let! q := parse in
  let! g := parse in
  let! y := parse in
  ret [p; q; g; y].

Definition dsa_mpis_private : Py ConstBitStream (list ConstBitStream) :=
  let! x := parse in
  ret [x].

(** [Mpi.consume_encryption(region, algorithm)]; a Python tuple is built
    left to right. *)
Definition consume_encryption (algorithm : PyValue)
  : Py ConstBitStream (list ConstBitStream) :=
  if is_ algorithm RSA then
    let! a := parse in
    ret [a]
  else if is_ algorithm ElGamal then
    let! a := parse in
    let! b := parse in
    ret [a; b]
  else raise_unknown "Unknown mpi algorithm for encryption " algorithm.

(** [Mpi.consume_public(region, algorithm)] *)
Definition consume_public (algorithm : PyValue)
  : Py ConstBitStream (list ConstBitStream) :=
  if is_ algorithm RSA then rsa_mpis_public
  else if is_ algorithm ElGamal then elgamal_mpis_public
  else if is_ algorithm DSA then dsa_mpis_public
  else raise_unknown "Unknown mpi algorithm for public keys " algorithm.

(** [Mpi.consume_private(region, algorithm)] *)
Definition consume_private (algorithm : PyValue)
  : Py ConstBitStream (list ConstBitStream) :=
  if is_ algorithm RSA then rsa_mpis_private
  else if is_ algorithm ElGamal then elgamal_mpis_private
  else if is_ algorithm DSA then dsa_mpis_private
  else raise_unknown "Unknown mpi algorithm for secret keys " algorithm.

End Mpi.

(** ** Decompression *)

Module Compression.
Section WithZlib.

(** [zlib.decompress(data, wbits)], the external primitive. *)
Variable zlib_decompress : list byte -> Z -> Outcome (list byte).

(** The -15 is the window size: negative, so no zlib header is expected. *)
Definition decompress_zlib (compressed : list byte) : Outcome (list byte) :=
  zlib_decompress compressed (-15).

Definition decompression : Mapping (list byte -> Outcome (list byte)) :=
  mkMapping "Decompressor" (<[1 := decompress_zlib]> ∅).

End WithZlib.
End Compression.

(** ** PKCS *)

(** A private key object of PyCrypto: only [decrypt] is used, on the tuple of
    MPI byte strings.  It may raise. *)
Record Key : Type := mkKey {
  decrypt : list (list byte) -> Outcome (list byte)
}.

(** What [PKCS.consume] does to the entropy source and to its local bit
    stream [padded], in order of execution. *)
Inductive Event : Type :=
| Ev_random (n : nat)                 (* Random.new().read(n) *)
| Ev_padded (before after : nat).     (* an access to padded: cursor before, after *)

(** The objects [PKCS.consume] works on. *)
Record World : Type := mkWorld {
  region : ConstBitStream;   (* the caller's stream, mutated by the reads *)
  padded : ConstBitStream;   (* the local of that name, once allocated *)
  entropy : nat -> byte;     (* the bytes the system generator will hand out *)
  drawn : nat;               (* how many of them were handed out *)
  log : list Event
}.

Definition on_region {A} (op : Py ConstBitStream A) : Py World A := fun w =>
  let '(o, r) := op (region w) in
  (o, {| region := r; padded := padded w; entropy := entropy w;
         drawn := drawn w; log := log w |}).

Definition on_padded {A} (op : Py ConstBitStream A) : Py World A := fun w =>
  let '(o, p) := op (padded w) in
  (o, {| region := region w; padded := p; entropy := entropy w;
         drawn := drawn w;
         log := log w ++ [Ev_padded (pos (padded w)) (pos p)] |}).

(** [padded = bitstring.ConstBitStream(bytes=bs)] *)
Definition new_padded (bs : list byte) : Py World unit := fun w =>
  (Return tt, {| region := region w; padded := ConstBitStream_of_bytes bs;
                 entropy := entropy w; drawn := drawn w; log := log w |}).

(** The next [n] bytes the generator hands out in world [w]. *)
Definition next_entropy (w : World) (n : nat) : list byte :=
  List.map (fun i => entropy w (drawn w + i)%nat) (seq 0 n).

(** [Random.new().read(n)] *)
Definition Random_read (n : nat) : Py World (list byte) := fun w =>
  (Return (next_entropy w n),
   {| region := region w; padded := padded w; entropy := entropy w;
      drawn := (drawn w + n)%nat; log := log w ++ [Ev_random n] |}).

(** [tuple(mpi.bytes for mpi in mpis)] *)
Fixpoint all_bytes (mpis : list ConstBitStream) : Outcome (list (list byte)) :=
  match mpis with
  | [] => Return []
  | mpi :: rest =>
      match Stream.to_bytes mpi with
      | Raise e => Raise e
      | Return b =>
          match all_bytes rest with
          | Raise e => Raise e
          | Return bs => Return (b :: bs)
          end
      end
  end.

Module PKCS.

(** Lines 86 to 109 of [consume]: everything after [padded] is allocated.
    Named to state lemmas about; [consume] below spells the same lines
    out again. *)
Definition unpad : Py World ConstBitStream :=
  let! decrypted := Random_read 19 in
  let! first := on_padded (Stream.read_bytes 1) in
  let! decrypted :=
    if bool_decide (first = [x02]) then
      let! pos_before := on_padded Stream.bytepos in
      do! on_padded (Stream.find (bits_of_bytes [x00]) true) in
      let! pos_after := on_padded Stream.bytepos in
      if bool_decide (pos_after - pos_before >= 8) then
        let! sep := on_padded (Stream.read_bytes 1) in
        on_padded Stream.read_bytes_rest
      else ret decrypted
    else ret decrypted in
  do! on_padded Stream.read_bytes_rest in
  ret (ConstBitStream_of_bytes decrypted).

(** [PKCS.consume(region, key_algorithm, key)] *)
Definition consume (key_algorithm : PyValue) (key : Key)
  : Py World ConstBitStream :=
  let! parsed := on_region (Mpi.consume_encryption key_algorithm) in
  let! mpis := lift_outcome (all_bytes parsed) in
  let! plain := lift_outcome (decrypt key mpis) in
  do! new_padded plain in
  let! decrypted := Random_read 19 in
  let! first := on_padded (Stream.read_bytes 1) in
  let! decrypted :=
    if bool_decide (first = [x02]) then
      let! pos_before := on_padded Stream.bytepos in
      do! on_padded (Stream.find (bits_of_bytes [x00]) true) in
      let! pos_after := on_padded Stream.bytepos in
      if bool_decide (pos_after - pos_before >= 8) then
        let! sep := on_padded (Stream.read_bytes 1) in
        on_padded Stream.read_bytes_rest
      else ret decrypted
    else ret decrypted in
  do! on_padded Stream.read_bytes_rest in
  ret (ConstBitStream_of_bytes decrypted).

End PKCS.

(** The world [PKCS.consume] leaves behind when [padded], made of [buf], was
    read to its end after the given accesses. *)
Definition consumed (w : World) (r : ConstBitStream) (buf : list byte)
    (accesses : list Event) : World :=
  {| region := r;
     padded := {| bits := bits_of_bytes buf; pos := 8 * length buf |};
     entropy := entropy w;
     drawn := (drawn w + 19)%nat;
     log := log w ++ Ev_random 19 :: accesses |}.

Definition is_padded_access (e : Event) : Prop :=
  match e with
  | Ev_padded _ _ => True
  | Ev_random _ => False
  end.

(** ** Vocabulary of the statements *)

(** The decrypted input buffer of a call of [PKCS.consume]: what
    [key.decrypt] returns for the MPIs read from the region (lines 83-84). *)
Definition decrypted_buffer (key_algorithm : PyValue) (key : Key) (w : World)
  : Outcome (list byte) :=
  match Mpi.consume_encryption key_algorithm (region w) with
  | (Return parsed, _) =>
      match all_bytes parsed with
      | Return mpis => decrypt key mpis
      | Raise e => Raise e
      end
  | (Raise e, _) => Raise e
  end.

(** The caller's region once those MPIs were read. *)
Definition region_after (key_algorithm : PyValue) (w : World) : ConstBitStream :=
  (Mpi.consume_encryption key_algorithm (region w)).2.

(** Malformed padding: byte 0 is not 0x02, or fewer than eight non-zero
    bytes stand between byte 0 and the first 0x00. *)
Definition malformed_padding (buf : list byte) : Prop :=
  (exists b rest, buf = b :: rest /\ b <> x02) \/
  (exists ps rest, buf = x02 :: ps ++ x00 :: rest /\
                   Forall (fun b => b <> x00) ps /\ (length ps < 8)%nat).

(** The byte of value [z mod 256]. *)
Definition byte_of_Z (z : Z) : byte :=
  match Byte.of_N (Z.to_N (z mod 256)) with
  | Some b => b
  | None => x00
  end.

(** The wire form of an MPI as the specification words it: a 16-bit
    big-endian bit length, then the bytes.  The program only reads MPIs; this
    encoder exists to state the round trip. *)
Definition mpi_encode (bitlen : Z) (payload : list byte) : list byte :=
  byte_of_Z (bitlen / 256) :: byte_of_Z bitlen :: payload.

(** Re-encode a parsed MPI under a given bit length. *)
Definition reencode (bitlen : Z) (mpi : ConstBitStream) : Outcome (list byte) :=
  match Stream.to_bytes mpi with
  | Return b => Return (mpi_encode bitlen b)
  | Raise e => Raise e
  end.

(** ** Sample inputs *)

Module Sample.

(** A key whose decryption glues the MPIs together. *)
Definition key : Key := mkKey (fun mpis => Return (concat mpis)).

(** An entropy source that counts up from 0xa0. *)
Definition source (i : nat) : byte := byte_of_Z (160 + Z.of_nat i).

(** A world whose region holds the given bytes. *)
Definition world (bs : list byte) : World :=
  {| region := ConstBitStream_of_bytes bs;
     padded := ConstBitStream_of_bytes [];
     entropy := source; drawn := 0; log := [] |}.

(** A store-only codec standing in for zlib: the raw stream is the data
    itself, the zlib stream carries a two-byte header, and only a negative
    window size reads a raw stream. *)
Definition deflate_raw (plain : list byte) : list byte := plain.

Definition zlib_decompress (data : list byte) (wbits : Z)
  : Outcome (list byte) :=
  if decide (wbits < 0) then Return data
  else match data with
       | x78 :: _ :: rest => Return rest
       | _ => Raise (ForeignError "incorrect header check")
       end.

End Sample.

(** ** The three dispatchers at once *)

(** What a key-material region is read for. *)
Inductive Context : Type := Public | Private | Encryption.

Definition consume_in (c : Context) (algorithm : PyValue)
  : Py ConstBitStream (list ConstBitStream) :=
  match c with
  | Public => Mpi.consume_public algorithm
  | Private => Mpi.consume_private algorithm
  | Encryption => Mpi.consume_encryption algorithm
  end.

(** How many MPIs each branch of a dispatcher reads, by the docstrings and
    comments of the branches; [None] where the dispatcher falls to its
    [else]. *)
Definition layout_size (c : Context) (m : PyModule) : option nat :=
  match c, m with
  | Public, RSA => Some 2%nat        (* n and e *)
  | Public, ElGamal => Some 3%nat    (* p, g and y *)
  | Public, DSA => Some 4%nat        (* p, q, g and y *)
  | Private, RSA => Some 4%nat       (* d, p, q and r *)
  | Private, ElGamal => Some 1%nat   (* x *)
  | Private, DSA => Some 1%nat       (* x *)
  | Encryption, RSA => Some 1%nat    (* m**e mod n *)
  | Encryption, ElGamal => Some 2%nat (* g**k mod p, m * y**k mod p *)
  | _, _ => None
  end.

(** The text before the ["%d"] in the message of each [else]. *)
Definition unknown_message (c : Context) : string :=
  match c with
  | Public => "Unknown mpi algorithm for public keys "
  | Private => "Unknown mpi algorithm for secret keys "
  | Encryption => "Unknown mpi algorithm for encryption "
  end.

(** [k] calls of [Mpi.parse] one after the other, results in reading
    order. *)
Fixpoint parse_many (k : nat) : Py ConstBitStream (list ConstBitStream) :=
  match k with
  | O => ret []
  | S k' =>
      let! mpi := Mpi.parse in
      let! rest := parse_many k' in
      ret (mpi :: rest)
  end.

(** The number of bytes [Mpi.parse] goes on to read for the prefix found at
    the cursor of [region] (line 124). *)
Definition declared_bytes (region : ConstBitStream) : nat :=
  Z.to_nat ((uint_of_bits (take 16 (drop (pos region) (bits region))) + 7) / 8).

(** What a reader may do to a region between its start [s] and its end [s']:
    the data are the same, the cursor has not moved back, and it has not
    left the data if it was inside. *)
Definition only_advances (s s' : ConstBitStream) : Prop :=
  bits s' = bits s /\
  (pos s <= pos s')%nat /\
  ((pos s <= length (bits s))%nat -> (pos s' <= length (bits s))%nat).

(** A parsed MPI as [PKCS.consume] wants it: a fresh bit string of whole
    bytes. *)
Definition whole_bytes (mpi : ConstBitStream) : Prop :=
  pos mpi = 0%nat /\ (length (bits mpi) mod 8 = 0)%nat.

(** The bits a region gave up for a list of MPIs: 16 for each prefix and the
    bits of each value. *)
Fixpoint bits_read (mpis : list ConstBitStream) : nat :=
  match mpis with
  | [] => 0
  | mpi :: rest => 16 + length (bits mpi) + bits_read rest
  end.

(** The wire form of several MPIs of whole bytes, one after the other, each
    under the bit length [8 * length]. *)
Definition encode_all (values : list (list byte)) : list byte :=
  concat (List.map (fun v => mpi_encode (8 * Z.of_nat (length v)) v) values).

(** ** Mappings keyed by objects

    [Ciphers.key_sizes] is a [Mapping] too, keyed by the cipher module.  The
    ["%s"] of its error message prints the key with [str], which for a
    module spells the path it was loaded from: [str_key] stands for it. *)

#[global] Instance PyModule_countable : Countable PyModule.
Proof.
  refine (inj_countable'
            (fun m => match m with
                      | RSA => 0 | DSA => 1 | ElGamal => 2
                      | SHA => 3 | SHA256 => 4 | CAST => 5
                      end)%nat
            (fun n => match n with
                      | 0 => RSA | 1 => DSA | 2 => ElGamal
                      | 3 => SHA | 4 => SHA256 | _ => CAST
                      end)%nat _).
  intros []; reflexivity.
Defined.

Record MappingOf (K V : Type) `{Countable K} : Type := mkMappingOf {
  type_of : string;
  map_of : gmap K V
}.
Arguments mkMappingOf {K V _ _} type_of map_of.
Arguments type_of {K V _ _} m.
Arguments map_of {K V _ _} m.

(** [Mapping.__getitem__] at any key type. *)
Definition MappingOf_getitem {K V} `{Countable K} (str_key : K -> string)
    (self : MappingOf K V) (key : K) : Outcome V :=
  match map_of self !! key with
  | None =>
      Raise (NotImplementedError
               ("Haven't implemented " +:+ type_of self +:+ " : " +:+ str_key key))
  | Some v => Return v
  end.

Module Ciphers.

Definition key_sizes : MappingOf PyModule Z :=
  mkMappingOf "Cipher key size" (<[CAST := 16]> ∅).

End Ciphers.

(** ** utils.py: [dump] *)

(** ["%02x" % n] for a number [n >= 0]: lower-case hexadecimal, padded with
    a zero to two characters. *)
Definition format_02x (n : N) : string :=
  let digits := HexadecimalString.NilZero.string_of_uint (N.to_hex_uint n) in
  if (String.length digits <? 2)%nat then "0" +:+ digits else digits.

(** The character [" "]. *)
Definition space : Ascii.ascii :=
  Ascii.Ascii false false false false false true false false.

(** [sep.join(l)] *)
Fixpoint join (sep : string) (l : list string) : string :=
  match l with
  | [] => ""
  | s :: rest =>
      match rest with
      | [] => s
      | _ :: _ => s +:+ sep +:+ join sep rest
      end
  end.

(** [dump(bytes)]; [ord] of a character of a [str] is its byte value. *)
Definition dump (bs : list byte) : string :=
  join " " (List.map (fun b => format_02x (Byte.to_N b)) bs).

(** Reading two hexadecimal digits back; a device for the proofs, the
    program has no such function. *)
Definition byte_of_hex (s : string) : option byte :=
  match HexadecimalString.NilZero.uint_of_string s with
  | Some d => Byte.of_N (N.of_hex_uint d)
  | None => None
  end.

(** ** utils.py: [ValueTracker]

    The tracker builds a tree out of dicts that point at each other: an
    item holds the list of its children and a reference to its parent, and
    [start_item] appends to a list that is reachable from the root.  The
    dicts therefore live in a store, addressed by their position in it. *)

Set Warnings "-register-all".

Module Tracker.

(** What can stop a tracker operation: the two exceptions Python raises on
    a missing dict key or attribute, and the two ways the model itself can
    stop short. *)
Inductive Failure : Type :=
| KeyError (key : string)
| AttributeError (name : string)
| Dangling        (* a reference to nothing in the store; no Python counterpart *)
| OutOfFuel.      (* the traversal was given too little fuel *)

Inductive Checked (A : Type) : Type :=
| Ok (a : A)
| Fail (f : Failure).
Arguments Ok {A} a.
Arguments Fail {A} f.

(** The nested lists [consumed] returns: [(info, children)] pairs. *)
Inductive Tree (V : Type) : Type :=
| Node (value : V) (children : list (Tree V)).
Arguments Node {V} value children.

Fixpoint tree_map {V W} (f : V -> W) (t : Tree V) : Tree W :=
  match t with
  | Node v kids => Node (f v) (List.map (tree_map f) kids)
  end.

(** The values of a tree, parent before children. *)
Fixpoint values {V} (t : Tree V) : list V :=
  match t with
  | Node v kids => v :: concat (List.map values kids)
  end.

Fixpoint height {V} (t : Tree V) : nat :=
  match t with
  | Node _ kids => S (foldr Nat.max 0%nat (List.map height kids))
  end.

Fixpoint mapM {A B} (f : A -> Checked B) (l : list A) : Checked (list B) :=
  match l with
  | [] => Ok []
  | a :: rest =>
      match f a with
      | Fail e => Fail e
      | Ok b =>
          match mapM f rest with
          | Fail e => Fail e
          | Ok bs => Ok (b :: bs)
          end
      end
  end.

Section WithInfo.

Variable Info : Type.

(** One dict: the root is [{'items': []}], an item is
    [{'items': [], 'info': item, 'parent': parent}]. *)
Record Item : Type := mkItem {
  items_of : list nat;
  info_of : option Info;
  parent_of : option nat
}.

Record ValueTracker : Type := mkTracker {
  heap : list Item;
  _items : nat;
  _current : option nat
}.

(** [ValueTracker()] *)
Definition new : ValueTracker :=
  {| heap := [mkItem [] None None]; _items := 0; _current := None |}.

(** [start_item(item)]; every dict of the tracker has a key, so
    [if self._current] asks whether it is [None]. *)
Definition start_item (item : Info) (self : ValueTracker) : ValueTracker :=
  let parent := match _current self with
                | Some c => c
                | None => _items self
                end in
  let next_item := length (heap self) in
  {| heap :=
       alter (fun d => mkItem (items_of d ++ [next_item]) (info_of d) (parent_of d))
         parent
         (heap self ++ [mkItem [] (Some item) (Some parent)]);
     _items := _items self;
     _current := Some next_item |}.

(** [end_item()] *)
Definition end_item (self : ValueTracker) : Checked ValueTracker :=
  match _current self with
  | None => Ok self
  | Some c =>
      match heap self !! c with
      | None => Fail Dangling
      | Some d =>
          match parent_of d with
          | Some p =>
              Ok {| heap := heap self; _items := _items self; _current := Some p |}
          | None => Fail (KeyError "parent")
          end
      end
  end.

Section Traversal.

Variable V : Type.

(** [values_from(info, keys, modifiers)] at fixed [keys] and [modifiers]. *)
Variable view : Info -> Checked V.

(** One turn of the loop of [items]: the pair yielded for the child [c],
    [rest] being the generator called on it. *)
Definition visit (h : list Item) (rest : nat -> Checked (list (Tree V)))
    (c : nat) : Checked (Tree V) :=
  match h !! c with
  | None => Fail Dangling
  | Some item =>
      match info_of item with
      | None => Fail (KeyError "info")
      | Some i =>
          match view i with
          | Fail e => Fail e
          | Ok v =>
              match rest c with
              | Fail e => Fail e
              | Ok kids => Ok (Node v kids)
              end
          end
      end
  end.

(** [list(self.items(items, keys, modifiers))] for the dict at [d]. *)
Fixpoint items (fuel : nat) (h : list Item) (d : nat)
  : Checked (list (Tree V)) :=
  match fuel with
  | O => Fail OutOfFuel
  | S fuel' =>
      match h !! d with
      | None => Fail Dangling
      | Some dict => mapM (visit h (items fuel' h)) (items_of dict)
      end
  end.

(** [consumed] at the [keys] and [modifiers] of [view]. *)
Definition consumed (fuel : nat) (self : ValueTracker)
  : Checked (list (Tree V)) :=
  items fuel (heap self) (_items self).

End Traversal.

(** Calls of the two recording methods, and a run of them. *)
Inductive Call : Type :=
| Start (item : Info)
| End_.

Fixpoint run (calls : list Call) (self : ValueTracker) : Checked ValueTracker :=
  match calls with
  | [] => Ok self
  | Start item :: rest => run rest (start_item item self)
  | End_ :: rest =>
      match end_item self with
      | Ok self' => run rest self'
      | Fail e => Fail e
      end
  end.

(** The calls a user makes to record a tree: start, the children in order,
    end. *)
Fixpoint record (t : Tree Info) : list Call :=
  match t with
  | Node v kids => Start v :: concat (List.map record kids) ++ [End_]
  end.

Definition record_all (forest : list (Tree Info)) : list Call :=
  concat (List.map record forest).

(** The dict at [c] and the dicts below it, all stored at positions from
    [lo] up to [hi], are the tree [t]. *)
Inductive repr (lo hi : nat) (h : list Item) : nat -> Tree Info -> Prop :=
| repr_node (c : nat) (d : Item) (v : Info) (kids : list (Tree Info)) :
    (lo <= c < hi)%nat ->
    h !! c = Some d ->
    info_of d = Some v ->
    Forall2 (repr lo hi h) (items_of d) kids ->
    repr lo hi h c (Node v kids).

(** The dict a new item is attached to. *)
Definition attach_point (self : ValueTracker) : nat :=
  match _current self with
  | Some c => c
  | None => _items self
  end.

(** What recording a forest under the attach point [p] does to the store:
    new dicts after the old ones, the old ones as they were except that [p]
    has the new children [cs], which are the forest. *)
Definition recorded (forest : list (Tree Info))
    (t : ValueTracker) (h' : list Item)
    (cs : list nat) : Prop :=
  let p := attach_point t in
  (length (heap t) <= length h')%nat /\
  (forall l, (l < length (heap t))%nat -> l <> p ->
             h' !! l = heap t !! l) /\
  (forall d, heap t !! p = Some d ->
             h' !! p = Some (mkItem (items_of d ++ cs)
                               (info_of d) (parent_of d))) /\
  Forall2 (repr (length (heap t)) (length h') h') cs forest.

Definition records_tree (tree : Tree Info) : Prop :=
  forall t : ValueTracker,
    (attach_point t < length (heap t))%nat ->
    exists h',
      run (record tree) t
      = Ok (mkTracker h' (_items t)
                      (Some (attach_point t))) /\
      recorded [tree] t h' [length (heap t)].

Definition records_forest (forest : list (Tree Info)) : Prop :=
  forall t : ValueTracker,
    (attach_point t < length (heap t))%nat ->
    exists h' cs,
      run (record_all forest) t
      = Ok (mkTracker h' (_items t)
                      (match forest with
                       | [] => _current t
                       | _ :: _ => Some (attach_point t)
                       end)) /\
      recorded forest t h' cs.

(** Every reference in the store leads somewhere: children stand after
    their parent and are items, parents and the two attributes are in the
    store. *)
Definition wf (t : ValueTracker) : Prop :=
  (_items t < length (heap t))%nat /\
  (forall c, _current t = Some c -> (c < length (heap t))%nat) /\
  (forall l d, heap t !! l = Some d ->
     Forall (fun c => (l < c)%nat /\
                      exists dc i, heap t !! c = Some dc /\ info_of dc = Some i)
       (items_of d) /\
     (forall p, parent_of d = Some p -> (p < length (heap t))%nat)).

End WithInfo.

Arguments mkItem {Info} items_of info_of parent_of.
Arguments items_of {Info} i.
Arguments info_of {Info} i.
Arguments parent_of {Info} i.
Arguments mkTracker {Info} heap _items _current.
Arguments heap {Info} v.
Arguments _items {Info} v.
Arguments _current {Info} v.
Arguments new {Info}.
Arguments start_item {Info} item self.
Arguments end_item {Info} self.
Arguments visit {Info V} view h rest c.
Arguments items {Info V} view fuel h d.
Arguments consumed {Info V} view fuel self.
Arguments Start {Info} item.
Arguments End_ {Info}.
Arguments run {Info} calls self.
Arguments record {Info} t.
Arguments record_all {Info} forest.
Arguments repr {Info} lo hi h _ _.
Arguments attach_point {Info} self.
Arguments recorded {Info} forest t h' cs.
Arguments wf {Info} t.
Arguments records_tree {Info} tree.
Arguments records_forest {Info} forest.

Section Values.

(** The values found inside an info. *)
Variable Val : Type.

(** An info is a dict, read with [info[key]], or any other object, read
    with [getattr(info, key)]; either way it is a finite map from names to
    values. *)
Inductive PyInfo : Type :=
| I_dict (d : gmap string Val)
| I_object (attributes : gmap string Val).

Definition names_of (info : PyInfo) : gmap string Val :=
  match info with
  | I_dict d => d
  | I_object a => a
  end.

(** [info[key]] or [getattr(info, key)] (lines 75-78). *)
Definition get_value (info : PyInfo) (key : string) : Checked Val :=
  match info with
  | I_dict d =>
      match d !! key with
      | Some v => Ok v
      | None => Fail (KeyError key)
      end
  | I_object a =>
      match a !! key with
      | Some v => Ok v
      | None => Fail (AttributeError key)
      end
  end.

(** The exception for a name the info does not have. *)
Definition missing (info : PyInfo) (key : string) : Failure :=
  match info with
  | I_dict _ => KeyError key
  | I_object _ => AttributeError key
  end.

(** What [values_from] returns: the info as it is, one value, or the dict
    [result]. *)
Inductive Extract : Type :=
| R_info (info : PyInfo)
| R_value (v : Val)
| R_dict (result : gmap string Val).

(** A modifier is called as [modifier(info, key, val)]. *)
Definition Modifier : Type := PyInfo -> string -> Val -> Val.

(** The first loop (lines 74-79), entered with [result] and the [val] of
    the turn before. *)
Fixpoint gather (info : PyInfo) (ks : list string)
    (result : gmap string Val) (val : Val)
  : Checked (gmap string Val * Val) :=
  match ks with
  | [] => Ok (result, val)
  | key :: rest =>
      match get_value info key with
      | Fail e => Fail e
      | Ok v => gather info rest (<[key := v]> result) v
      end
  end.

(** The second loop (lines 80-81): [val] is whatever the first loop left. *)
Fixpoint modify (info : PyInfo) (ms : list (string * Modifier)) (val : Val)
    (result : gmap string Val) : gmap string Val :=
  match ms with
  | [] => result
  | (key, modifier) :: rest =>
      modify info rest val (<[key := modifier info key val]> result)
  end.

(** [result[key]] *)
Definition get_result (result : gmap string Val) (key : string)
  : Checked Extract :=
  match result !! key with
  | Some v => Ok (R_value v)
  | None => Fail (KeyError key)
  end.

(** [values_from(info, keys, modifiers)]; [modifiers] lists the keyword
    arguments in the order the dict hands them out, the same for [keys()]
    and [items()]. *)
Definition values_from (info : PyInfo) (keys : list string)
    (modifiers : list (string * Modifier)) : Checked Extract :=
  match keys ++ List.map fst modifiers with
  | [] => Ok (R_info info)
  | first_key :: others =>
      match get_value info first_key with
      | Fail e => Fail e
      | Ok v =>
          match gather info others (<[first_key := v]> ∅) v with
          | Fail e => Fail e
          | Ok (gathered, val) =>
              let result := modify info modifiers val gathered in
              match modifiers, keys with
              | [], [key] => get_result result key
              | [(key, _)], [] => get_result result key
              | _, _ => Ok (R_dict result)
              end
          end
      end
  end.

End Values.

Arguments I_dict {Val} d.
Arguments I_object {Val} attributes.
Arguments names_of {Val} info.
Arguments get_value {Val} info key.
Arguments missing {Val} info key.
Arguments R_info {Val} info.
Arguments R_value {Val} v.
Arguments R_dict {Val} result.
Arguments gather {Val} info ks result val.
Arguments modify {Val} info ms val result.
Arguments get_result {Val} result key.
Arguments values_from {Val} info keys modifiers.

End Tracker.

(** * Properties *)

(** ** Bits and bytes *)

Lemma bits_of_byte_length (b : byte) : length (bits_of_byte b) = 8%nat.
Proof. unfold bits_of_byte. destruct (Byte.to_bits b) as (?&?&?&?&?&?&?&?). reflexivity. Qed.

Lemma bits_of_bytes_cons (b : byte) (bs : list byte) :
  bits_of_bytes (b :: bs) = bits_of_byte b ++ bits_of_bytes bs.
Proof. reflexivity. Qed.

Lemma bits_of_bytes_app (xs ys : list byte) :
  bits_of_bytes (xs ++ ys) = bits_of_bytes xs ++ bits_of_bytes ys.
Proof. unfold bits_of_bytes. rewrite map_app. apply concat_app. Qed.

Lemma bits_of_bytes_length (bs : list byte) :
  length (bits_of_bytes bs) = (8 * length bs)%nat.
Proof.
  induction bs as [|b bs IH]; [reflexivity|].
  rewrite bits_of_bytes_cons, length_app, bits_of_byte_length, IH. simpl. lia.
Qed.

Lemma bytes_of_bits_byte (b : byte) (l : list bool) :
  bytes_of_bits (bits_of_byte b ++ l) = b :: bytes_of_bits l.
Proof.
  unfold bits_of_byte.
  destruct (Byte.to_bits b) as (b0&b1&b2&b3&b4&b5&b6&b7) eqn:E.
  cbn [app bytes_of_bits]. rewrite <- E, Byte.of_bits_to_bits. reflexivity.
Qed.

Lemma bytes_of_bits_app (bs : list byte) (l : list bool) :
  bytes_of_bits (bits_of_bytes bs ++ l) = bs ++ bytes_of_bits l.
Proof.
  induction bs as [|b bs IH]; [reflexivity|].
  rewrite bits_of_bytes_cons, <- app_assoc, bytes_of_bits_byte, IH. reflexivity.
Qed.

Lemma bytes_of_bits_of_bytes (bs : list byte) :
  bytes_of_bits (bits_of_bytes bs) = bs.
Proof.
  rewrite <- (app_nil_r (bits_of_bytes bs)), bytes_of_bits_app.
  apply app_nil_r.
Qed.

Lemma bits_of_byte_inj (a b : byte) : bits_of_byte a = bits_of_byte b -> a = b.
Proof.
  intros H.
  assert (E : bytes_of_bits (bits_of_byte a ++ []) = bytes_of_bits (bits_of_byte b ++ []))
    by (rewrite H; reflexivity).
  rewrite !bytes_of_bits_byte in E. congruence.
Qed.

Lemma drop_bits_of_bytes (k : nat) (bs : list byte) :
  drop (8 * k) (bits_of_bytes bs) = bits_of_bytes (drop k bs).
Proof.
  revert bs. induction k as [|k IH]; intros bs; [reflexivity|].
  destruct bs as [|b bs].
  - rewrite !drop_nil. reflexivity.
  - rewrite bits_of_bytes_cons, skipn_cons.
    replace (8 * S k)%nat with (length (bits_of_byte b) + 8 * k)%nat
      by (rewrite bits_of_byte_length; lia).
    rewrite drop_app_add. apply IH.
Qed.

Lemma take_bits_of_bytes (k : nat) (bs : list byte) :
  take (8 * k) (bits_of_bytes bs) = bits_of_bytes (take k bs).
Proof.
  revert bs. induction k as [|k IH]; intros bs; [reflexivity|].
  destruct bs as [|b bs].
  - rewrite !take_nil. reflexivity.
  - rewrite firstn_cons, !bits_of_bytes_cons.
    replace (8 * S k)%nat with (length (bits_of_byte b) + 8 * k)%nat
      by (rewrite bits_of_byte_length; lia).
    rewrite take_app_add. f_equal. apply IH.
Qed.

(** ** Reading a stream made of whole bytes *)

Lemma read_bits_ok (s : ConstBitStream) (n : nat) :
  (pos s + n <= length (bits s))%nat ->
  Stream.read_bits n s
  = (Return (take n (drop (pos s) (bits s))), {| bits := bits s; pos := pos s + n |}).
Proof. intros H. unfold Stream.read_bits. rewrite decide_True by lia. reflexivity. Qed.

Lemma read_bits_short (s : ConstBitStream) (n : nat) :
  (length (bits s) < pos s + n)%nat ->
  Stream.read_bits n s = (Raise ReadError, s).
Proof. intros H. unfold Stream.read_bits. rewrite decide_False by lia. reflexivity. Qed.

Lemma read_bytes_aligned (buf : list byte) (k n : nat) :
  (k + n <= length buf)%nat ->
  Stream.read_bytes n {| bits := bits_of_bytes buf; pos := 8 * k |}
  = (Return (take n (drop k buf)),
     {| bits := bits_of_bytes buf; pos := 8 * (k + n) |}).
Proof.
  intros H. unfold Stream.read_bytes, bind.
  rewrite read_bits_ok by (cbn [bits pos]; rewrite bits_of_bytes_length; lia).
  cbn [bits pos ret].
  rewrite drop_bits_of_bytes, take_bits_of_bytes, bytes_of_bits_of_bytes.
  do 2 f_equal. lia.
Qed.

Lemma read_bytes_short (buf : list byte) (k n : nat) :
  (length buf < k + n)%nat ->
  Stream.read_bytes n {| bits := bits_of_bytes buf; pos := 8 * k |}
  = (Raise ReadError, {| bits := bits_of_bytes buf; pos := 8 * k |}).
Proof.
  intros H. unfold Stream.read_bytes, bind.
  rewrite read_bits_short by (cbn [bits pos]; rewrite bits_of_bytes_length; lia).
  reflexivity.
Qed.

Lemma read_bytes_rest_aligned (buf : list byte) (k : nat) :
  (k <= length buf)%nat ->
  Stream.read_bytes_rest {| bits := bits_of_bytes buf; pos := 8 * k |}
  = (Return (drop k buf),
     {| bits := bits_of_bytes buf; pos := 8 * length buf |}).
Proof.
  intros H. unfold Stream.read_bytes_rest, bind.
  rewrite read_bits_ok by (cbn [bits pos]; rewrite bits_of_bytes_length; lia).
  cbn [bits pos ret].
  rewrite bits_of_bytes_length, drop_bits_of_bytes.
  rewrite take_ge by (rewrite bits_of_bytes_length, length_drop; lia).
  rewrite bytes_of_bits_of_bytes. do 2 f_equal. lia.
Qed.

Lemma bytepos_aligned (l : list bool) (k : nat) :
  Stream.bytepos {| bits := l; pos := 8 * k |}
  = (Return (Z.of_nat k), {| bits := l; pos := 8 * k |}).
Proof.
  unfold Stream.bytepos. cbn [pos].
  rewrite decide_True by (rewrite Nat.mul_comm; apply Nat.Div0.mod_mul).
  rewrite Nat.mul_comm, Nat.div_mul by lia. reflexivity.
Qed.

(** ** Searching for the separator *)

Lemma find_from_unaligned (pat l l' : list bool) (p : nat) :
  (forall i, (i < length l)%nat -> ((p + i) mod 8 <> 0)%nat) ->
  Stream.find_from true pat (l ++ l') p
  = Stream.find_from true pat l' (p + length l).
Proof.
  revert p. induction l as [|a l IH]; intros p H.
  - cbn [app length]. f_equal. lia.
  - cbn [app length Stream.find_from negb orb].
    assert (E : (p mod 8 =? 0)%nat = false).
    { apply Nat.eqb_neq. specialize (H 0%nat). rewrite Nat.add_0_r in H.
      apply H. cbn [length]. lia. }
    rewrite E. cbn [andb]. rewrite IH.
    + f_equal. lia.
    + intros i Hi. replace (S p + i)%nat with (p + S i)%nat by lia.
      apply H. cbn [length]. lia.
Qed.

Lemma find_from_byte (pat : list bool) (b : byte) (l : list bool) (k : nat) :
  length pat = 8%nat ->
  Stream.find_from true pat (bits_of_byte b ++ l) (8 * k)
  = if bool_decide (bits_of_byte b = pat) then Some (8 * k)%nat
    else Stream.find_from true pat l (8 * S k).
Proof.
  intros Hpat.
  assert (Hlen := bits_of_byte_length b).
  destruct (bits_of_byte b) as [|b7 l7] eqn:E; [discriminate|].
  cbn [app Stream.find_from negb orb].
  replace ((8 * k) mod 8 =? 0)%nat with true
    by (symmetry; apply Nat.eqb_eq; rewrite Nat.mul_comm; apply Nat.Div0.mod_mul).
  cbn [andb]. rewrite Hpat.
  replace (take 8 (b7 :: l7 ++ l)) with (b7 :: l7).
  2:{ change (b7 :: l7 ++ l) with ((b7 :: l7) ++ l).
      rewrite take_app_length'; [reflexivity|symmetry; exact Hlen]. }
  destruct (bool_decide (b7 :: l7 = pat)); [reflexivity|].
  rewrite find_from_unaligned.
  - f_equal. cbn [length] in Hlen. lia.
  - intros i Hi. cbn [length] in Hlen.
    replace (S (8 * k) + i)%nat with (S i + k * 8)%nat by lia.
    rewrite Nat.Div0.mod_add, Nat.mod_small; lia.
Qed.

Lemma find_from_separator (ps rest : list byte) (k : nat) :
  Forall (fun b => b <> x00) ps ->
  Stream.find_from true (bits_of_bytes [x00])
    (bits_of_bytes (ps ++ x00 :: rest)) (8 * k)
  = Some (8 * (k + length ps))%nat.
Proof.
  intros Hps. revert k. induction Hps as [|b ps Hb Hps IH]; intros k.
  - cbn [app length].
    rewrite (bits_of_bytes_cons x00 rest), find_from_byte by reflexivity.
    rewrite bool_decide_eq_true_2 by reflexivity. f_equal. lia.
  - cbn [app length].
    rewrite (bits_of_bytes_cons b (ps ++ x00 :: rest)), find_from_byte
      by reflexivity.
    rewrite bool_decide_eq_false_2.
    + rewrite IH. f_equal. lia.
    + intros E. apply Hb, bits_of_byte_inj. exact E.
Qed.

Lemma find_from_no_separator (ps : list byte) (k : nat) :
  Forall (fun b => b <> x00) ps ->
  Stream.find_from true (bits_of_bytes [x00]) (bits_of_bytes ps) (8 * k) = None.
Proof.
  intros Hps. revert k. induction Hps as [|b ps Hb Hps IH]; intros k.
  - reflexivity.
  - rewrite (bits_of_bytes_cons b ps), find_from_byte by reflexivity.
    rewrite bool_decide_eq_false_2; [apply IH|].
    intros E. apply Hb, bits_of_byte_inj. exact E.
Qed.

(** ** Running [PKCS.consume] *)

(** Past a first byte that is not zero, a search from bit 0 and a search
    from the cursor after that byte find the same place. *)
Lemma find_from_past_first_byte (b : byte) (rest : list byte) :
  b <> x00 ->
  Stream.find_from true (bits_of_bytes [x00]) (bits_of_bytes (b :: rest)) 0
  = Stream.find_from true (bits_of_bytes [x00]) (bits_of_bytes rest) 8.
Proof.
  intros Hb. change 0%nat with (8 * 0)%nat.
  rewrite (bits_of_bytes_cons b rest), find_from_byte by reflexivity.
  rewrite bool_decide_eq_false_2; [reflexivity|].
  intros E. apply Hb, bits_of_byte_inj. exact E.
Qed.

Lemma bind_Return {S A B} (m : Py S A) (k : A -> Py S B) (s s' : S) (a : A) :
  m s = (Return a, s') -> bind m k s = k a s'.
Proof. intros H. unfold bind. rewrite H. reflexivity. Qed.

Lemma bind_Raise {S A B} (m : Py S A) (k : A -> Py S B) (s s' : S) (e : Exception) :
  m s = (Raise e, s') -> bind m k s = (Raise e, s').
Proof. intros H. unfold bind. rewrite H. reflexivity. Qed.

Lemma on_padded_step {A} (op : Py ConstBitStream A) (o : Outcome A)
    (r p p' : ConstBitStream) (e : nat -> byte) (d : nat) (l : list Event) :
  op p = (o, p') ->
  on_padded op (mkWorld r p e d l)
  = (o, mkWorld r p' e d (l ++ [Ev_padded (pos p) (pos p')])).
Proof. intros H. unfold on_padded. cbn [padded]. rewrite H. reflexivity. Qed.

Lemma consume_unfold (key_algorithm : PyValue) (key : Key) :
  PKCS.consume key_algorithm key
  = (let! parsed := on_region (Mpi.consume_encryption key_algorithm) in
     let! mpis := lift_outcome (all_bytes parsed) in
     let! plain := lift_outcome (decrypt key mpis) in
     do! new_padded plain in
     PKCS.unpad).
Proof. reflexivity. Qed.

Lemma find_separator (ps rest : list byte) (p : nat) :
  Forall (fun b => b <> x00) ps ->
  Stream.find (bits_of_bytes [x00]) true
    {| bits := bits_of_bytes (ps ++ x00 :: rest); pos := p |}
  = (Return (Some (8 * length ps)%nat),
     {| bits := bits_of_bytes (ps ++ x00 :: rest); pos := 8 * length ps |}).
Proof.
  intros Hps. unfold Stream.find. rewrite decide_False by discriminate.
  cbn [bits]. change 0%nat with (8 * 0)%nat.
  rewrite find_from_separator by exact Hps. reflexivity.
Qed.

Lemma find_no_separator (ps : list byte) (p : nat) :
  Forall (fun b => b <> x00) ps ->
  Stream.find (bits_of_bytes [x00]) true {| bits := bits_of_bytes ps; pos := p |}
  = (Return None, {| bits := bits_of_bytes ps; pos := p |}).
Proof.
  intros Hps. unfold Stream.find. rewrite decide_False by discriminate.
  cbn [bits]. change 0%nat with (8 * 0)%nat.
  rewrite find_from_no_separator by exact Hps. reflexivity.
Qed.

Ltac solve_length :=
  cbn [length]; rewrite ?length_app; cbn [length]; lia.

(** The world in which [PKCS.unpad] starts. *)
Ltac start_unpad w buf Hp :=
  destruct w as [r p e d l]; cbn [padded] in Hp; subst p;
  unfold PKCS.unpad, consumed, ConstBitStream_of_bytes;
  cbn [region padded entropy drawn log];
  erewrite (bind_Return (Random_read 19)) by reflexivity;
  cbn [region padded entropy drawn log];
  change (mkStream (bits_of_bytes buf) 0)
    with (mkStream (bits_of_bytes buf) (8 * 0)).

Ltac padded_step lem :=
  erewrite bind_Return by (apply on_padded_step; apply lem; solve_length);
  cbn [pos].

Ltac finish_unpad :=
  unfold ret; repeat rewrite <- app_assoc; cbn [app];
  repeat (f_equal; try solve_length).

Lemma unpad_empty (w : World) :
  padded w = ConstBitStream_of_bytes [] ->
  exists w',
    PKCS.unpad w = (Raise ReadError, w') /\
    region w' = region w /\ padded w' = ConstBitStream_of_bytes [].
Proof.
  intros Hp. start_unpad w (@nil byte) Hp.
  erewrite bind_Raise
    by (apply on_padded_step; apply read_bytes_short; cbn [length]; lia).
  eexists. split; [reflexivity|]. split; reflexivity.
Qed.

Lemma unpad_wrong_first_byte (w : World) (b : byte) (rest : list byte) :
  padded w = ConstBitStream_of_bytes (b :: rest) ->
  b <> x02 ->
  PKCS.unpad w
  = (Return (ConstBitStream_of_bytes (next_entropy w 19)),
     consumed w (region w) (b :: rest)
       [Ev_padded 0 8; Ev_padded 8 (8 * length (b :: rest))]).
Proof.
  intros Hp Hb. start_unpad w (b :: rest) Hp.
  padded_step read_bytes_aligned. cbn [drop take].
  rewrite bool_decide_eq_false_2 by congruence.
  erewrite (bind_Return (ret _)) by reflexivity.
  padded_step read_bytes_rest_aligned.
  finish_unpad.
Qed.

Lemma unpad_no_separator (w : World) (ps : list byte) :
  padded w = ConstBitStream_of_bytes (x02 :: ps) ->
  Forall (fun b => b <> x00) ps ->
  PKCS.unpad w
  = (Return (ConstBitStream_of_bytes (next_entropy w 19)),
     consumed w (region w) (x02 :: ps)
       [Ev_padded 0 8; Ev_padded 8 8; Ev_padded 8 8; Ev_padded 8 8;
        Ev_padded 8 (8 * length (x02 :: ps))]).
Proof.
  intros Hp Hps. start_unpad w (x02 :: ps) Hp.
  padded_step read_bytes_aligned. cbn [drop take].
  rewrite bool_decide_eq_true_2 by reflexivity.
  erewrite (bind_Return (bind _ _)).
  2:{ padded_step bytepos_aligned.
      erewrite bind_Return
        by (apply on_padded_step; apply find_no_separator;
            constructor; [discriminate|exact Hps]).
      cbn [pos].
      padded_step bytepos_aligned.
      rewrite bool_decide_eq_false_2 by lia.
      reflexivity. }
  padded_step read_bytes_rest_aligned.
  finish_unpad.
Qed.

Lemma unpad_short_padding (w : World) (ps rest : list byte) :
  padded w = ConstBitStream_of_bytes (x02 :: ps ++ x00 :: rest) ->
  Forall (fun b => b <> x00) ps ->
  (length ps < 8)%nat ->
  PKCS.unpad w
  = (Return (ConstBitStream_of_bytes (next_entropy w 19)),
     consumed w (region w) (x02 :: ps ++ x00 :: rest)
       [Ev_padded 0 8; Ev_padded 8 8; Ev_padded 8 (8 * S (length ps));
        Ev_padded (8 * S (length ps)) (8 * S (length ps));
        Ev_padded (8 * S (length ps))
          (8 * length (x02 :: ps ++ x00 :: rest))]).
Proof.
  intros Hp Hps Hlen. start_unpad w (x02 :: ps ++ x00 :: rest) Hp.
  padded_step read_bytes_aligned. cbn [drop take].
  rewrite bool_decide_eq_true_2 by reflexivity.
  erewrite (bind_Return (bind _ _)).
  2:{ padded_step bytepos_aligned.
      erewrite bind_Return
        by (apply on_padded_step;
            apply (find_separator (x02 :: ps) rest);
            constructor; [discriminate|exact Hps]).
      cbn [pos].
      padded_step bytepos_aligned.
      rewrite bool_decide_eq_false_2 by (cbn [length]; lia).
      reflexivity. }
  change (x02 :: ps ++ x00 :: rest) with ((x02 :: ps) ++ x00 :: rest).
  padded_step read_bytes_rest_aligned.
  finish_unpad.
Qed.

Lemma unpad_well_formed (w : World) (ps payload : list byte) :
  padded w = ConstBitStream_of_bytes (x02 :: ps ++ x00 :: payload) ->
  Forall (fun b => b <> x00) ps ->
  (8 <= length ps)%nat ->
  PKCS.unpad w
  = (Return (ConstBitStream_of_bytes payload),
     consumed w (region w) (x02 :: ps ++ x00 :: payload)
       [Ev_padded 0 8; Ev_padded 8 8; Ev_padded 8 (8 * S (length ps));
        Ev_padded (8 * S (length ps)) (8 * S (length ps));
        Ev_padded (8 * S (length ps)) (8 * S (S (length ps)));
        Ev_padded (8 * S (S (length ps)))
          (8 * length (x02 :: ps ++ x00 :: payload));
        Ev_padded (8 * length (x02 :: ps ++ x00 :: payload))
          (8 * length (x02 :: ps ++ x00 :: payload))]).
Proof.
  intros Hp Hps Hlen. start_unpad w (x02 :: ps ++ x00 :: payload) Hp.
  padded_step read_bytes_aligned. cbn [drop take].
  rewrite bool_decide_eq_true_2 by reflexivity.
  change (x02 :: ps ++ x00 :: payload) with ((x02 :: ps) ++ x00 :: payload).
  erewrite (bind_Return (bind _ _)).
  2:{ padded_step bytepos_aligned.
      erewrite bind_Return
        by (apply on_padded_step;
            apply (find_separator (x02 :: ps) payload);
            constructor; [discriminate|exact Hps]).
      cbn [pos].
      padded_step bytepos_aligned.
      rewrite bool_decide_eq_true_2 by (cbn [length]; lia).
      padded_step read_bytes_aligned.
      erewrite on_padded_step by (apply read_bytes_rest_aligned; solve_length).
      cbn [pos]. reflexivity. }
  padded_step read_bytes_rest_aligned.
  replace (drop (length (x02 :: ps) + 1) ((x02 :: ps) ++ x00 :: payload))
    with payload.
  2:{ rewrite drop_app_add. reflexivity. }
  finish_unpad.
Qed.

Lemma consume_after_decrypt (key_algorithm : PyValue) (key : Key) (w : World)
    (buf : list byte) :
  decrypted_buffer key_algorithm key w = Return buf ->
  PKCS.consume key_algorithm key w
  = PKCS.unpad {| region := region_after key_algorithm w;
                  padded := ConstBitStream_of_bytes buf;
                  entropy := entropy w; drawn := drawn w; log := log w |}.
Proof.
  unfold decrypted_buffer, region_after. intros H.
  rewrite consume_unfold. unfold bind at 1. unfold on_region.
  destruct (Mpi.consume_encryption key_algorithm (region w)) as [[parsed|e] r'];
    [|discriminate].
  unfold bind at 1. unfold lift_outcome at 1.
  destruct (all_bytes parsed) as [mpis|e]; [|discriminate].
  unfold bind at 1. unfold lift_outcome at 1. rewrite H.
  reflexivity.
Qed.

Lemma next_entropy_length (w : World) (n : nat) : length (next_entropy w n) = n.
Proof. unfold next_entropy. rewrite length_map. apply length_seq. Qed.

Lemma split_at_zero (l : list byte) :
  Forall (fun b => b <> x00) l \/
  exists ps rest, l = ps ++ x00 :: rest /\ Forall (fun b => b <> x00) ps.
Proof.
  induction l as [|b l IH].
  - left. constructor.
  - destruct (decide (b = x00)) as [->|Hb].
    + right. exists [], l. split; [reflexivity|constructor].
    + destruct IH as [IH|(ps & rest & -> & Hps)].
      * left. constructor; assumption.
      * right. exists (b :: ps), rest. split; [reflexivity|].
        constructor; assumption.
Qed.

(** * Main results *)

(** C1.  When the decrypted buffer is 0x02, then at least eight non-zero
    bytes, then a 0x00 separator, [PKCS.consume] returns a stream holding
    exactly the bytes after the separator: the separator is dropped and the
    random default is not what comes back. *)
Theorem consume_returns_payload (key_algorithm : PyValue) (key : Key)
    (w : World) (ps payload : list byte) :
  decrypted_buffer key_algorithm key w = Return (x02 :: ps ++ x00 :: payload) ->
  Forall (fun b => b <> x00) ps ->
  (8 <= length ps)%nat ->
  (PKCS.consume key_algorithm key w).1
  = Return (ConstBitStream_of_bytes payload) /\
  Stream.to_bytes (ConstBitStream_of_bytes payload) = Return payload.
Proof.
  intros Hbuf Hps Hlen. split.
  - rewrite (consume_after_decrypt _ _ _ _ Hbuf).
    erewrite unpad_well_formed; [reflexivity|reflexivity|exact Hps|exact Hlen].
  - unfold Stream.to_bytes, ConstBitStream_of_bytes. cbn [bits].
    rewrite bits_of_bytes_length, bytes_of_bits_of_bytes.
    rewrite decide_True; [reflexivity|].
    rewrite Nat.mul_comm. apply Nat.Div0.mod_mul.
Qed.

Lemma consume_returns_payload_witness :
  (PKCS.consume (VModule RSA) Sample.key
     (Sample.world [x00; x70; x02; x11; x22; x33; x44; x55; x66; x77; x88;
                    x00; x03; xaa; xbb; xcc])).1
  = Return (ConstBitStream_of_bytes [x03; xaa; xbb; xcc]) /\
  Stream.to_bytes (ConstBitStream_of_bytes [x03; xaa; xbb; xcc])
  = Return [x03; xaa; xbb; xcc].
Proof.
  apply (consume_returns_payload (VModule RSA) Sample.key _
           [x11; x22; x33; x44; x55; x66; x77; x88] [x03; xaa; xbb; xcc]).
  - reflexivity.
  - repeat constructor; discriminate.
  - simpl. lia.
Defined.

(** C2.  When the padding of the decrypted buffer is malformed,
    [PKCS.consume] raises nothing and returns a stream over the 19 bytes it
    drew from the random generator; that draw is the first thing it did
    after allocating [padded], before any access to it, and the value
    returned has the shape of a good one. *)
Theorem consume_malformed_returns_fallback (key_algorithm : PyValue)
    (key : Key) (w : World) (buf : list byte) :
  decrypted_buffer key_algorithm key w = Return buf ->
  malformed_padding buf ->
  exists accesses,
    PKCS.consume key_algorithm key w
    = (Return (ConstBitStream_of_bytes (next_entropy w 19)),
       consumed w (region_after key_algorithm w) buf accesses) /\
    length (next_entropy w 19) = 19%nat /\
    Forall is_padded_access accesses.
Proof.
  intros Hbuf Hbad. rewrite (consume_after_decrypt _ _ _ _ Hbuf).
  destruct Hbad as [(b & rest & -> & Hb)|(ps & rest & -> & Hps & Hlen)].
  - eexists. split; [|split].
    + erewrite unpad_wrong_first_byte; [reflexivity|reflexivity|exact Hb].
    + apply next_entropy_length.
    + repeat constructor.
  - eexists. split; [|split].
    + erewrite unpad_short_padding; [reflexivity|reflexivity|exact Hps|exact Hlen].
    + apply next_entropy_length.
    + repeat constructor.
Qed.

Lemma consume_malformed_returns_fallback_witness :
  exists accesses,
    PKCS.consume (VModule RSA) Sample.key
      (Sample.world [x00; x20; x01; x11; x00; xaa])
    = (Return (ConstBitStream_of_bytes
                 (next_entropy (Sample.world [x00; x20; x01; x11; x00; xaa]) 19)),
       consumed (Sample.world [x00; x20; x01; x11; x00; xaa])
         (region_after (VModule RSA) (Sample.world [x00; x20; x01; x11; x00; xaa]))
         [x01; x11; x00; xaa] accesses) /\
    length (next_entropy (Sample.world [x00; x20; x01; x11; x00; xaa]) 19) = 19%nat /\
    Forall is_padded_access accesses.
Proof.
  apply (consume_malformed_returns_fallback (VModule RSA) Sample.key
           (Sample.world [x00; x20; x01; x11; x00; xaa]) [x01; x11; x00; xaa]).
  - reflexivity.
  - left. exists x01, [x11; x00; xaa]. split; [reflexivity|discriminate].
Defined.

(** C3.  Whatever the decrypted buffer holds, [PKCS.consume] leaves the
    cursor of [padded] at the end of the buffer, on the good path and on
    every bad one; and it does return whenever the buffer has a first byte
    to look at. *)
Theorem consume_reads_padded_to_end (key_algorithm : PyValue) (key : Key)
    (w : World) (buf : list byte) :
  decrypted_buffer key_algorithm key w = Return buf ->
  bits (padded (PKCS.consume key_algorithm key w).2) = bits_of_bytes buf /\
  pos (padded (PKCS.consume key_algorithm key w).2)
  = length (bits (padded (PKCS.consume key_algorithm key w).2)) /\
  (buf <> [] -> exists out, (PKCS.consume key_algorithm key w).1 = Return out).
Proof.
  intros Hbuf. rewrite (consume_after_decrypt _ _ _ _ Hbuf).
  set (w0 := {| region := region_after key_algorithm w;
                padded := ConstBitStream_of_bytes buf;
                entropy := entropy w; drawn := drawn w; log := log w |}).
  assert (Hp : padded w0 = ConstBitStream_of_bytes buf) by reflexivity.
  clearbody w0. clear Hbuf.
  assert (Hdone : forall out w1 accesses,
             PKCS.unpad w0 = (Return out, consumed w1 (region w0) buf accesses) ->
             bits (padded (PKCS.unpad w0).2) = bits_of_bytes buf /\
             pos (padded (PKCS.unpad w0).2)
             = length (bits (padded (PKCS.unpad w0).2)) /\
             (buf <> [] -> exists out, (PKCS.unpad w0).1 = Return out)).
  { intros out w1 accesses ->. cbn [fst snd consumed padded bits pos].
    rewrite bits_of_bytes_length. repeat split. eauto. }
  destruct buf as [|b rest].
  - destruct (unpad_empty w0 Hp) as (w' & -> & _ & Hp').
    cbn [fst snd]. rewrite Hp'. repeat split. congruence.
  - destruct (decide (b = x02)) as [->|Hb].
    + destruct (split_at_zero rest) as [Hps|(ps & rest' & -> & Hps)].
      * eapply Hdone, unpad_no_separator; eassumption.
      * destruct (le_lt_dec 8 (length ps)).
        -- eapply Hdone, unpad_well_formed; eassumption.
        -- eapply Hdone, unpad_short_padding; eassumption.
    + eapply Hdone, unpad_wrong_first_byte; eassumption.
Qed.

Lemma consume_reads_padded_to_end_witness :
  let run := PKCS.consume (VModule ElGamal) Sample.key
               (Sample.world [x00; x08; x02; x00; x10; x11; x00]) in
  bits (padded run.2) = bits_of_bytes [x02; x11; x00] /\
  pos (padded run.2) = length (bits (padded run.2)) /\
  ([x02; x11; x00] <> [] -> exists out, run.1 = Return out).
Proof.
  apply (consume_reads_padded_to_end (VModule ElGamal) Sample.key
           (Sample.world [x00; x08; x02; x00; x10; x11; x00]) [x02; x11; x00]).
  reflexivity.
Defined.

(** C10.  When the decrypted buffer starts with 0x02 and holds no 0x00
    after it, [PKCS.consume] raises nothing and returns the 19 random bytes:
    the search leaves the cursor where it was, after byte 0, so the two
    byte positions are equal and the test of their difference fails. *)
Theorem consume_no_separator_returns_fallback (key_algorithm : PyValue)
    (key : Key) (w : World) (ps : list byte) :
  decrypted_buffer key_algorithm key w = Return (x02 :: ps) ->
  Forall (fun b => b <> x00) ps ->
  PKCS.consume key_algorithm key w
  = (Return (ConstBitStream_of_bytes (next_entropy w 19)),
     consumed w (region_after key_algorithm w) (x02 :: ps)
       [Ev_padded 0 8; Ev_padded 8 8; Ev_padded 8 8; Ev_padded 8 8;
        Ev_padded 8 (8 * length (x02 :: ps))]) /\
  length (next_entropy w 19) = 19%nat /\
  Stream.find (bits_of_bytes [x00]) true
    {| bits := bits_of_bytes (x02 :: ps); pos := 8 |}
  = (Return None, {| bits := bits_of_bytes (x02 :: ps); pos := 8 |}).
Proof.
  intros Hbuf Hps. split; [|split].
  - rewrite (consume_after_decrypt _ _ _ _ Hbuf).
    erewrite unpad_no_separator; [reflexivity|reflexivity|exact Hps].
  - apply next_entropy_length.
  - apply find_no_separator. constructor; [discriminate|exact Hps].
Qed.

Lemma consume_no_separator_returns_fallback_witness :
  PKCS.consume (VModule RSA) Sample.key (Sample.world [x00; x18; x02; x11; x22])
  = (Return (ConstBitStream_of_bytes
               (next_entropy (Sample.world [x00; x18; x02; x11; x22]) 19)),
     consumed (Sample.world [x00; x18; x02; x11; x22])
       (region_after (VModule RSA) (Sample.world [x00; x18; x02; x11; x22]))
       [x02; x11; x22]
       [Ev_padded 0 8; Ev_padded 8 8; Ev_padded 8 8; Ev_padded 8 8;
        Ev_padded 8 (8 * length [x02; x11; x22])]) /\
  length (next_entropy (Sample.world [x00; x18; x02; x11; x22]) 19) = 19%nat /\
  Stream.find (bits_of_bytes [x00]) true
    {| bits := bits_of_bytes [x02; x11; x22]; pos := 8 |}
  = (Return None, {| bits := bits_of_bytes [x02; x11; x22]; pos := 8 |}).
Proof.
  apply (consume_no_separator_returns_fallback (VModule RSA) Sample.key
           (Sample.world [x00; x18; x02; x11; x22]) [x11; x22]).
  - reflexivity.
  - repeat constructor; discriminate.
Defined.

(** A buffer with no byte at all has no byte 0 to inspect: the first read
    raises. *)
Lemma consume_empty_buffer_raises (key_algorithm : PyValue) (key : Key)
    (w : World) :
  decrypted_buffer key_algorithm key w = Return [] ->
  (PKCS.consume key_algorithm key w).1 = Raise ReadError.
Proof.
  intros Hbuf. rewrite (consume_after_decrypt _ _ _ _ Hbuf).
  edestruct unpad_empty as (w' & -> & _); reflexivity.
Qed.

(** ** Reading an MPI *)

Lemma uint_of_bits_acc (l : list bool) (acc : Z) :
  fold_left (fun a (b : bool) => 2 * a + (if b then 1 else 0)) l acc
  = acc * 2 ^ Z.of_nat (length l) + uint_of_bits l.
Proof.
  unfold uint_of_bits. revert acc. induction l as [|b l IH]; intros acc.
  - cbn. lia.
  - cbn [fold_left length]. rewrite IH, (IH (2 * 0 + _)).
    rewrite Nat2Z.inj_succ, Z.pow_succ_r by lia. lia.
Qed.

Lemma uint_of_bits_app (l1 l2 : list bool) :
  uint_of_bits (l1 ++ l2)
  = uint_of_bits l1 * 2 ^ Z.of_nat (length l2) + uint_of_bits l2.
Proof.
  unfold uint_of_bits at 1. rewrite fold_left_app.
  fold (uint_of_bits l1). apply uint_of_bits_acc.
Qed.

Lemma uint_of_byte (b : byte) :
  uint_of_bits (bits_of_byte b) = Z.of_N (Byte.to_N b).
Proof. destruct b; reflexivity. Qed.

Lemma byte_of_Z_value (z : Z) :
  Z.of_N (Byte.to_N (byte_of_Z z)) = z mod 256.
Proof.
  unfold byte_of_Z.
  assert (Hz : 0 <= z mod 256 < 256) by (apply Z.mod_pos_bound; lia).
  destruct (Byte.of_N (Z.to_N (z mod 256))) as [b|] eqn:E.
  - apply Byte.to_of_N in E. rewrite E. lia.
  - apply Byte.of_N_None_iff in E. lia.
Qed.

Lemma uint_of_prefix (bitlen : Z) (payload : list byte) :
  0 <= bitlen < 65536 ->
  uint_of_bits (take 16 (bits_of_bytes (mpi_encode bitlen payload))) = bitlen.
Proof.
  intros H. unfold mpi_encode.
  change (byte_of_Z (bitlen / 256) :: byte_of_Z bitlen :: payload)
    with ([byte_of_Z (bitlen / 256); byte_of_Z bitlen] ++ payload).
  rewrite bits_of_bytes_app, take_app_length'
    by (rewrite bits_of_bytes_length; reflexivity).
  rewrite (bits_of_bytes_cons _ [_]), uint_of_bits_app, bits_of_bytes_length.
  rewrite (bits_of_bytes_cons _ []). cbn [bits_of_bytes map concat].
  rewrite app_nil_r, !uint_of_byte, !byte_of_Z_value.
  cbn [length]. change (2 ^ Z.of_nat (8 * 1)) with 256.
  rewrite (Z.mod_small (bitlen / 256)).
  - pose proof (Z.div_mod bitlen 256). lia.
  - split; [apply Z.div_pos; lia|apply Z.div_lt_upper_bound; lia].
Qed.

Lemma ceil8 (raw : Z) (n : nat) :
  raw <= 8 * Z.of_nat n < raw + 8 -> (raw + 7) / 8 = Z.of_nat n.
Proof.
  intros H. symmetry. apply (Z.div_unique _ _ _ (raw + 7 - 8 * Z.of_nat n)); lia.
Qed.

Lemma parse_sufficient (region : ConstBitStream) (n : nat) :
  (pos region + 16 <= length (bits region))%nat ->
  uint_of_bits (take 16 (drop (pos region) (bits region))) <= 8 * Z.of_nat n
    < uint_of_bits (take 16 (drop (pos region) (bits region))) + 8 ->
  (pos region + 16 + 8 * n <= length (bits region))%nat ->
  Mpi.parse region
  = (Return {| bits := take (8 * n) (drop (pos region + 16) (bits region));
               pos := 0 |},
     {| bits := bits region; pos := pos region + 16 + 8 * n |}).
Proof.
  intros H16 Hn Hlen. unfold Mpi.parse.
  erewrite bind_Return
    by (unfold Stream.read_uint; erewrite bind_Return by (apply read_bits_ok; lia);
        reflexivity).
  rewrite (ceil8 _ n Hn). unfold Stream.read.
  rewrite decide_False by lia.
  replace (Z.to_nat (Z.of_nat n * 8)) with (8 * n)%nat by lia.
  erewrite bind_Return by (apply read_bits_ok; cbn [bits pos]; lia).
  reflexivity.
Qed.

Lemma parse_insufficient (region : ConstBitStream) (n : nat) :
  (pos region + 16 <= length (bits region))%nat ->
  uint_of_bits (take 16 (drop (pos region) (bits region))) <= 8 * Z.of_nat n
    < uint_of_bits (take 16 (drop (pos region) (bits region))) + 8 ->
  (length (bits region) < pos region + 16 + 8 * n)%nat ->
  Mpi.parse region
  = (Raise ReadError, {| bits := bits region; pos := pos region + 16 |}).
Proof.
  intros H16 Hn Hlen. unfold Mpi.parse.
  erewrite bind_Return
    by (unfold Stream.read_uint; erewrite bind_Return by (apply read_bits_ok; lia);
        reflexivity).
  rewrite (ceil8 _ n Hn). unfold Stream.read.
  rewrite decide_False by lia.
  replace (Z.to_nat (Z.of_nat n * 8)) with (8 * n)%nat by lia.
  erewrite bind_Raise by (apply read_bits_short; cbn [bits pos]; lia).
  reflexivity.
Qed.

Lemma parse_no_prefix (region : ConstBitStream) :
  (length (bits region) < pos region + 16)%nat ->
  Mpi.parse region = (Raise ReadError, region).
Proof.
  intros H. unfold Mpi.parse.
  erewrite bind_Raise
    by (unfold Stream.read_uint; erewrite bind_Raise by (apply read_bits_short; lia);
        reflexivity).
  reflexivity.
Qed.

Lemma to_bytes_of_bytes (bs : list byte) :
  Stream.to_bytes (ConstBitStream_of_bytes bs) = Return bs.
Proof.
  unfold Stream.to_bytes, ConstBitStream_of_bytes. cbn [bits].
  rewrite bits_of_bytes_length, bytes_of_bits_of_bytes.
  rewrite decide_True; [reflexivity|].
  rewrite Nat.mul_comm. apply Nat.Div0.mod_mul.
Qed.

Lemma parse_encoded (pre post : list bool) (bitlen : Z) (payload : list byte) :
  0 <= bitlen < 65536 ->
  bitlen <= 8 * Z.of_nat (length payload) < bitlen + 8 ->
  Mpi.parse {| bits := pre ++ bits_of_bytes (mpi_encode bitlen payload) ++ post;
               pos := length pre |}
  = (Return (ConstBitStream_of_bytes payload),
     {| bits := pre ++ bits_of_bytes (mpi_encode bitlen payload) ++ post;
        pos := length pre + 16 + 8 * length payload |}).
Proof.
  intros Hb Hn.
  assert (Henc : length (bits_of_bytes (mpi_encode bitlen payload))
                 = (16 + 8 * length payload)%nat).
  { rewrite bits_of_bytes_length. unfold mpi_encode. cbn [length]. lia. }
  assert (Hraw : uint_of_bits
            (take 16 (drop (length pre)
               (pre ++ bits_of_bytes (mpi_encode bitlen payload) ++ post)))
            = bitlen).
  { rewrite drop_app_length, take_app_le by lia.
    apply uint_of_prefix, Hb. }
  rewrite (parse_sufficient _ (length payload)); cbn [bits pos].
  - unfold ConstBitStream_of_bytes. do 3 f_equal.
    rewrite <- drop_drop, drop_app_length.
    unfold mpi_encode.
    change (byte_of_Z (bitlen / 256) :: byte_of_Z bitlen :: payload)
      with ([byte_of_Z (bitlen / 256); byte_of_Z bitlen] ++ payload).
    rewrite bits_of_bytes_app, <- app_assoc.
    rewrite drop_app_length' by (rewrite bits_of_bytes_length; reflexivity).
    rewrite take_app_length'; [reflexivity|].
    rewrite bits_of_bytes_length. reflexivity.
  - rewrite !length_app, Henc. lia.
  - rewrite Hraw. exact Hn.
  - rewrite !length_app, Henc. lia.
Qed.

(** C4.  [Mpi.parse] reads a 16-bit big-endian bit length [raw], then
    returns the next [n] bytes where [n] is [raw / 8] rounded up, and leaves
    the cursor behind them; so parsing the encoding of [payload] under the
    bit length [8 * length payload], at any place in a region, gives back
    [payload], and encoding that again gives the bytes that were read. *)
Theorem parse_reads_declared_bytes :
  (forall (region : ConstBitStream) (n : nat),
      (pos region + 16 <= length (bits region))%nat ->
      uint_of_bits (take 16 (drop (pos region) (bits region))) <= 8 * Z.of_nat n
        < uint_of_bits (take 16 (drop (pos region) (bits region))) + 8 ->
      (pos region + 16 + 8 * n <= length (bits region))%nat ->
      Mpi.parse region
      = (Return {| bits := take (8 * n) (drop (pos region + 16) (bits region));
                   pos := 0 |},
         {| bits := bits region; pos := pos region + 16 + 8 * n |})) /\
  (forall (pre post : list bool) (payload : list byte),
      8 * Z.of_nat (length payload) < 65536 ->
      let encoded := mpi_encode (8 * Z.of_nat (length payload)) payload in
      let region := {| bits := pre ++ bits_of_bytes encoded ++ post;
                       pos := length pre |} in
      Mpi.parse region
      = (Return (ConstBitStream_of_bytes payload),
         {| bits := bits region;
            pos := length pre + 16 + 8 * length payload |}) /\
      reencode (8 * Z.of_nat (length payload)) (ConstBitStream_of_bytes payload)
      = Return encoded).
Proof.
  split.
  - exact parse_sufficient.
  - intros pre post payload Hlen encoded region. split.
    + apply parse_encoded; lia.
    + unfold reencode. rewrite to_bytes_of_bytes. reflexivity.
Qed.

Lemma parse_reads_declared_bytes_witness :
  Mpi.parse {| bits := [true; false; true]
                       ++ bits_of_bytes [x00; x0b; x05; xff; x77] ++ [true];
               pos := 3 |}
  = (Return {| bits := bits_of_bytes [x05; xff]; pos := 0 |},
     {| bits := [true; false; true]
                ++ bits_of_bytes [x00; x0b; x05; xff; x77] ++ [true];
        pos := 35 |}) /\
  (Mpi.parse (ConstBitStream_of_bytes [x00; x10; xde; xad; x99])
   = (Return (ConstBitStream_of_bytes [xde; xad]),
      {| bits := bits_of_bytes [x00; x10; xde; xad; x99]; pos := 32 |}) /\
   reencode 16 (ConstBitStream_of_bytes [xde; xad])
   = Return [x00; x10; xde; xad]).
Proof.
  destruct parse_reads_declared_bytes as [Hread Hround]. split.
  - apply (Hread {| bits := [true; false; true]
                            ++ bits_of_bytes [x00; x0b; x05; xff; x77] ++ [true];
                    pos := 3 |} 2%nat).
    + simpl. lia.
    + vm_compute. split; [discriminate|reflexivity].
    + simpl. lia.
  - apply (Hround [] (bits_of_bytes [x99]) [xde; xad]). simpl. lia.
Defined.

(** C5.  When the region holds the 16-bit prefix but fewer bytes than it
    declares, [Mpi.parse] raises bitstring's [ReadError] (the
    [TruncatedRegion] of the specification) with the cursor after the
    prefix, and returns no value; so does a region that is nothing but a
    prefix declaring at least one bit. *)
Theorem parse_truncated_raises :
  (forall (region : ConstBitStream) (n : nat),
      (pos region + 16 <= length (bits region))%nat ->
      uint_of_bits (take 16 (drop (pos region) (bits region))) <= 8 * Z.of_nat n
        < uint_of_bits (take 16 (drop (pos region) (bits region))) + 8 ->
      (length (bits region) < pos region + 16 + 8 * n)%nat ->
      Mpi.parse region
      = (Raise ReadError, {| bits := bits region; pos := pos region + 16 |})) /\
  (forall bitlen : Z,
      1 <= bitlen < 65536 ->
      Mpi.parse (ConstBitStream_of_bytes (mpi_encode bitlen []))
      = (Raise ReadError,
         {| bits := bits_of_bytes (mpi_encode bitlen []); pos := 16 |})).
Proof.
  split.
  - exact parse_insufficient.
  - intros bitlen Hb.
    assert (Hn : exists n : nat, bitlen <= 8 * Z.of_nat n < bitlen + 8 /\ (1 <= n)%nat).
    { exists (Z.to_nat ((bitlen + 7) / 8)).
      pose proof (Z.div_mod (bitlen + 7) 8).
      pose proof (Z.mod_pos_bound (bitlen + 7) 8). lia. }
    destruct Hn as (n & Hn & Hpos).
    apply (parse_insufficient (ConstBitStream_of_bytes (mpi_encode bitlen [])) n).
    + cbn [ConstBitStream_of_bytes bits pos]. rewrite bits_of_bytes_length.
      cbn [mpi_encode length]. lia.
    + cbn [ConstBitStream_of_bytes bits pos]. rewrite drop_0.
      rewrite uint_of_prefix by lia. exact Hn.
    + cbn [ConstBitStream_of_bytes bits pos]. rewrite bits_of_bytes_length.
      cbn [mpi_encode length]. lia.
Qed.

Lemma parse_truncated_raises_witness :
  Mpi.parse (ConstBitStream_of_bytes [x00; x11; xaa; xbb])
  = (Raise ReadError, {| bits := bits_of_bytes [x00; x11; xaa; xbb]; pos := 16 |}) /\
  Mpi.parse (ConstBitStream_of_bytes [x00; x01])
  = (Raise ReadError, {| bits := bits_of_bytes [x00; x01]; pos := 16 |}).
Proof.
  destruct parse_truncated_raises as [Hshort Hbare]. split.
  - apply (Hshort (ConstBitStream_of_bytes [x00; x11; xaa; xbb]) 3%nat).
    + simpl. lia.
    + vm_compute. split; [discriminate|reflexivity].
    + simpl. lia.
  - apply (Hbare 1). lia.
Defined.

(** ** The registry *)

Lemma getitem_missing {V} (self : Mapping V) (key : Z) :
  map self !! key = None ->
  Mapping_getitem self key
  = Raise (NotImplementedError
             ("Haven't implemented " +:+ type self +:+ " : " +:+ str_int key)).
Proof. intros H. unfold Mapping_getitem. rewrite H. reflexivity. Qed.

Lemma getitem_present {V} (self : Mapping V) (key : Z) (v : V) :
  map self !! key = Some v -> Mapping_getitem self key = Return v.
Proof. intros H. unfold Mapping_getitem. rewrite H. reflexivity. Qed.

(** C6.  Looking a code up in [Algorithms.keys] returns a module for each
    of 1, 2, 3, 16 and 17 (RSA three times, ElGamal, DSA), and for every
    other code raises [NotImplementedError] with a message that names the
    mapping and the code; nothing is returned by default. *)
Theorem keys_lookup_total (code : Z) :
  if bool_decide (code ∈ [1; 2; 3; 16; 17])
  then exists handle : PyModule,
         Mapping_getitem Algorithms.keys code = Return handle /\
         handle = (if bool_decide (code ∈ [1; 2; 3]) then RSA
                   else if bool_decide (code = 16) then ElGamal else DSA)
  else Mapping_getitem Algorithms.keys code
       = Raise (NotImplementedError
                  ("Haven't implemented Key algorithm : " +:+ str_int code)).
Proof.
  case_bool_decide as Hin.
  - repeat (apply elem_of_cons in Hin as [->|Hin]);
      [eexists; split; reflexivity ..|].
    apply elem_of_nil in Hin. contradiction.
  - apply (getitem_missing Algorithms.keys). cbn [Algorithms.keys map].
    rewrite !lookup_insert_ne, lookup_empty; [reflexivity|..];
      intros <-; apply Hin; set_solver.
Qed.

(** ** The layouts *)

(** C7.  On a region from which MPIs can be parsed, the layout functions
    return them in reading order: one for DSA private keys (x) and for RSA
    session keys (m^e mod n); two for RSA public keys (n then e) and for
    ElGamal session keys (g^k mod p then m.y^k mod p). *)
Theorem layouts_count_and_order (region r1 : ConstBitStream)
    (first : ConstBitStream) :
  Mpi.parse region = (Return first, r1) ->
  Mpi.consume_private (VModule DSA) region = (Return [first], r1) /\
  Mpi.consume_encryption (VModule RSA) region = (Return [first], r1) /\
  (forall (second r2 : ConstBitStream),
      Mpi.parse r1 = (Return second, r2) ->
      Mpi.consume_public (VModule RSA) region = (Return [first; second], r2) /\
      Mpi.consume_encryption (VModule ElGamal) region
      = (Return [first; second], r2)).
Proof.
  intros H1. split; [|split].
  - change (Mpi.consume_private (VModule DSA)) with Mpi.dsa_mpis_private.
    unfold Mpi.dsa_mpis_private. rewrite (bind_Return _ _ _ _ _ H1). reflexivity.
  - change (Mpi.consume_encryption (VModule RSA))
      with (let! a := Mpi.parse in @ret ConstBitStream _ [a]).
    rewrite (bind_Return _ _ _ _ _ H1). reflexivity.
  - intros second r2 H2. split.
    + change (Mpi.consume_public (VModule RSA)) with Mpi.rsa_mpis_public.
      unfold Mpi.rsa_mpis_public.
      rewrite (bind_Return _ _ _ _ _ H1), (bind_Return _ _ _ _ _ H2).
      reflexivity.
    + change (Mpi.consume_encryption (VModule ElGamal))
        with (let! a := Mpi.parse in let! b := Mpi.parse in
              @ret ConstBitStream _ [a; b]).
      rewrite (bind_Return _ _ _ _ _ H1), (bind_Return _ _ _ _ _ H2).
      reflexivity.
Qed.

Lemma layouts_count_and_order_witness :
  let region := ConstBitStream_of_bytes [x00; x08; xc1; x00; x09; x01; x01] in
  Mpi.consume_private (VModule DSA) region
  = (Return [ConstBitStream_of_bytes [xc1]], mkStream (bits region) 24) /\
  Mpi.consume_encryption (VModule RSA) region
  = (Return [ConstBitStream_of_bytes [xc1]], mkStream (bits region) 24) /\
  (forall (second r2 : ConstBitStream),
      Mpi.parse (mkStream (bits region) 24) = (Return second, r2) ->
      Mpi.consume_public (VModule RSA) region
      = (Return [ConstBitStream_of_bytes [xc1]; second], r2) /\
      Mpi.consume_encryption (VModule ElGamal) region
      = (Return [ConstBitStream_of_bytes [xc1]; second], r2)).
Proof.
  apply (layouts_count_and_order
           (ConstBitStream_of_bytes [x00; x08; xc1; x00; x09; x01; x01])).
  reflexivity.
Defined.

Example rsa_public_two_mpis :
  Mpi.consume_public (VModule RSA)
    (ConstBitStream_of_bytes [x00; x08; xc1; x00; x09; x01; x01])
  = (Return [ConstBitStream_of_bytes [xc1]; ConstBitStream_of_bytes [x01; x01]],
     mkStream (bits_of_bytes [x00; x08; xc1; x00; x09; x01; x01]) 56).
Proof. reflexivity. Qed.

(** C8.  Asked for the session-key layout of DSA, the module that
    [Algorithms.keys] holds under 17, [Mpi.consume_encryption] raises
    [TypeError]: the ["%d"] in the message of the [PGPException] it means to
    raise does not accept a module.  The region is not touched. *)
Theorem consume_encryption_dsa_raises_type_error (region : ConstBitStream) :
  Mapping_getitem Algorithms.keys 17 = Return DSA /\
  Mpi.consume_encryption (VModule DSA) region = (Raise TypeError, region).
Proof. split; reflexivity. Qed.

(** Only a number gets the exception the code spells out. *)
Lemma consume_encryption_number_raises_pgp (region : ConstBitStream) (z : Z) :
  Mpi.consume_encryption (VInt z) region
  = (Raise (PGPException ("Unknown mpi algorithm for encryption " +:+ str_int z)),
     region).
Proof. reflexivity. Qed.

Lemma consume_encryption_unknown_module (region : ConstBitStream) (m : PyModule) :
  m <> RSA -> m <> ElGamal ->
  Mpi.consume_encryption (VModule m) region = (Raise TypeError, region).
Proof. intros H1 H2. destruct m; try contradiction; reflexivity. Qed.

(** ** Decompression *)

Section Decompression.

Variable zlib_decompress : list byte -> Z -> Outcome (list byte).

(** A raw deflate compressor (no zlib header), and what zlib promises
    about it: inflating its output under window size -15 gives the data
    back. *)
Variable deflate_raw : list byte -> list byte.
Hypothesis inflate_raw :
  forall plain, zlib_decompress (deflate_raw plain) (-15) = Return plain.

(** C9.  The decompressor held under code 1 calls [zlib.decompress] with
    the negative window size -15, so it gives back every plaintext that
    was compressed to a raw deflate stream; any other code raises
    [NotImplementedError] naming the mapping and the code. *)
Theorem decompression_raw_deflate :
  Mapping_getitem (Compression.decompression zlib_decompress) 1
  = Return (Compression.decompress_zlib zlib_decompress) /\
  (forall compressed,
      Compression.decompress_zlib zlib_decompress compressed
      = zlib_decompress compressed (-15)) /\
  -15 < 0 /\
  (forall plain,
      Compression.decompress_zlib zlib_decompress (deflate_raw plain)
      = Return plain) /\
  (forall code,
      code <> 1 ->
      Mapping_getitem (Compression.decompression zlib_decompress) code
      = Raise (NotImplementedError
                 ("Haven't implemented Decompressor : " +:+ str_int code))).
Proof.
  split; [|split; [|split; [|split]]].
  - reflexivity.
  - reflexivity.
  - lia.
  - intros plain. apply inflate_raw.
  - intros code Hcode.
    apply (getitem_missing (Compression.decompression zlib_decompress)).
    cbn [Compression.decompression map].
    rewrite lookup_insert_ne by congruence. apply lookup_empty.
Qed.

End Decompression.

Lemma decompression_raw_deflate_witness :
  Mapping_getitem (Compression.decompression Sample.zlib_decompress) 1
  = Return (Compression.decompress_zlib Sample.zlib_decompress) /\
  (forall compressed,
      Compression.decompress_zlib Sample.zlib_decompress compressed
      = Sample.zlib_decompress compressed (-15)) /\
  -15 < 0 /\
  (forall plain,
      Compression.decompress_zlib Sample.zlib_decompress (Sample.deflate_raw plain)
      = Return plain) /\
  (forall code,
      code <> 1 ->
      Mapping_getitem (Compression.decompression Sample.zlib_decompress) code
      = Raise (NotImplementedError
                 ("Haven't implemented Decompressor : " +:+ str_int code))).
Proof.
  apply (decompression_raw_deflate Sample.zlib_decompress Sample.deflate_raw).
  intros plain. reflexivity.
Defined.

(** ** Worked examples *)

Example parse_nine_bits :
  Mpi.parse (ConstBitStream_of_bytes [x00; x09; x01; xff; xaa])
  = (Return (ConstBitStream_of_bytes [x01; xff]),
     {| bits := bits_of_bytes [x00; x09; x01; xff; xaa]; pos := 32 |}).
Proof. reflexivity. Qed.

Example parse_zero_bits :
  Mpi.parse (ConstBitStream_of_bytes [x00; x00; xaa])
  = (Return (ConstBitStream_of_bytes []),
     {| bits := bits_of_bytes [x00; x00; xaa]; pos := 16 |}).
Proof. reflexivity. Qed.

Example keys_five :
  Mapping_getitem Algorithms.keys 5
  = Raise (NotImplementedError "Haven't implemented Key algorithm : 5").
Proof. vm_compute. reflexivity. Qed.

Example consume_session_key :
  (PKCS.consume (VModule RSA) Sample.key
     (Sample.world [x00; x68; x02; x11; x11; x11; x11; x11; x11; x11; x11;
                    x00; xaa; xbb; xcc; xdd])).1
  = Return (ConstBitStream_of_bytes [xaa; xbb; xcc]).
Proof. vm_compute. reflexivity. Qed.

Example consume_seven_byte_padding :
  (PKCS.consume (VModule RSA) Sample.key
     (Sample.world [x00; x60; x02; x11; x11; x11; x11; x11; x11; x11;
                    x00; xaa; xbb; xcc; xdd])).1
  = Return (ConstBitStream_of_bytes
              [xa0; xa1; xa2; xa3; xa4; xa5; xa6; xa7; xa8; xa9;
               xaa; xab; xac; xad; xae; xaf; xb0; xb1; xb2]).
Proof. vm_compute. reflexivity. Qed.

(** * More of the code *)

(** ** [Mpi.parse] on any region *)

Lemma uint_of_bits_range (l : list bool) :
  0 <= uint_of_bits l < 2 ^ Z.of_nat (length l).
Proof.
  induction l as [|b l IH] using rev_ind.
  - cbn. lia.
  - rewrite uint_of_bits_app, length_app. cbn [length].
    replace (Z.of_nat (length l + 1)) with (Z.succ (Z.of_nat (length l))) by lia.
    rewrite Z.pow_succ_r by lia.
    change (2 ^ Z.of_nat 1) with 2.
    assert (0 <= uint_of_bits [b] < 2) by (destruct b; cbn; lia).
    lia.
Qed.

Lemma declared_bytes_spec (region : ConstBitStream) :
  uint_of_bits (take 16 (drop (pos region) (bits region)))
    <= 8 * Z.of_nat (declared_bytes region)
    < uint_of_bits (take 16 (drop (pos region) (bits region))) + 8.
Proof.
  unfold declared_bytes.
  pose proof (uint_of_bits_range (take 16 (drop (pos region) (bits region)))) as [H0 _].
  set (raw := uint_of_bits _) in *.
  pose proof (Z.div_mod (raw + 7) 8). pose proof (Z.mod_pos_bound (raw + 7) 8).
  assert (0 <= (raw + 7) / 8) by (apply Z.div_pos; lia).
  lia.
Qed.

Lemma declared_bytes_bound (region : ConstBitStream) :
  Z.of_nat (declared_bytes region) <= 8192.
Proof.
  pose proof (declared_bytes_spec region) as H.
  pose proof (uint_of_bits_range (take 16 (drop (pos region) (bits region)))) as [_ Hlt].
  assert (Hlen : (length (take 16 (drop (pos region) (bits region))) <= 16)%nat)
    by (rewrite length_take; lia).
  assert (2 ^ Z.of_nat (length (take 16 (drop (pos region) (bits region)))) <= 2 ^ 16)
    by (apply Z.pow_le_mono_r; lia).
  change (2 ^ 16) with 65536 in *. lia.
Qed.

(** Every run of [Mpi.parse] is one of three. *)
Lemma parse_cases (region : ConstBitStream) :
  Mpi.parse region
  = if decide (pos region + 16 <= length (bits region))%nat
    then if decide (pos region + 16 + 8 * declared_bytes region
                    <= length (bits region))%nat
         then (Return {| bits := take (8 * declared_bytes region)
                                   (drop (pos region + 16) (bits region));
                         pos := 0 |},
               {| bits := bits region;
                  pos := pos region + 16 + 8 * declared_bytes region |})
         else (Raise ReadError,
               {| bits := bits region; pos := pos region + 16 |})
    else (Raise ReadError, region).
Proof.
  destruct (decide (pos region + 16 <= length (bits region))%nat) as [H16|H16].
  - destruct (decide (pos region + 16 + 8 * declared_bytes region
                      <= length (bits region))%nat) as [Hn|Hn].
    + apply (parse_sufficient region (declared_bytes region));
        [exact H16|apply declared_bytes_spec|exact Hn].
    + apply (parse_insufficient region (declared_bytes region));
        [exact H16|apply declared_bytes_spec|lia].
  - apply parse_no_prefix. lia.
Qed.

Lemma only_advances_refl (s : ConstBitStream) : only_advances s s.
Proof. unfold only_advances. auto. Qed.

Lemma only_advances_trans (s1 s2 s3 : ConstBitStream) :
  only_advances s1 s2 -> only_advances s2 s3 -> only_advances s1 s3.
Proof.
  unfold only_advances. intros (Hb1 & Hp1 & He1) (Hb2 & Hp2 & He2).
  rewrite Hb1 in *. repeat split; [congruence|lia|].
  intros H. apply He2, He1, H.
Qed.

(** X1.  With fewer than 16 bits left, and so at the end of a region or on
    an empty one, [Mpi.parse] raises [ReadError] and leaves the region
    exactly as it was. *)
Theorem parse_short_region_untouched (region : ConstBitStream) :
  (length (bits region) < pos region + 16)%nat ->
  Mpi.parse region = (Raise ReadError, region).
Proof.
  intros H. rewrite parse_cases, decide_False by lia. reflexivity.
Qed.

Lemma parse_short_region_untouched_witness :
  Mpi.parse (ConstBitStream_of_bytes [x01])
  = (Raise ReadError, ConstBitStream_of_bytes [x01]).
Proof.
  apply (parse_short_region_untouched (ConstBitStream_of_bytes [x01])).
  simpl. lia.
Defined.

(** X2.  A prefix that declares no bit is accepted: [Mpi.parse] returns an
    empty bit string, whose [bytes] is the empty string, and the cursor
    moves past the prefix only. *)
Theorem parse_zero_bits_declared (region : ConstBitStream) :
  (pos region + 16 <= length (bits region))%nat ->
  uint_of_bits (take 16 (drop (pos region) (bits region))) = 0 ->
  Mpi.parse region
  = (Return (ConstBitStream_of_bytes []),
     {| bits := bits region; pos := pos region + 16 |}) /\
  Stream.to_bytes (ConstBitStream_of_bytes []) = Return [].
Proof.
  intros H16 Hraw. split; [|reflexivity].
  assert (Hn : declared_bytes region = 0%nat)
    by (unfold declared_bytes; rewrite Hraw; reflexivity).
  rewrite parse_cases, Hn. rewrite decide_True by lia.
  rewrite decide_True by lia.
  rewrite Nat.mul_0_r, Nat.add_0_r. reflexivity.
Qed.

Lemma parse_zero_bits_declared_witness :
  Mpi.parse {| bits := bits_of_bytes [xff; x00; x00; x7f]; pos := 8 |}
  = (Return (ConstBitStream_of_bytes []),
     {| bits := bits_of_bytes [xff; x00; x00; x7f]; pos := 8 + 16 |}) /\
  Stream.to_bytes (ConstBitStream_of_bytes []) = Return [].
Proof.
  apply (parse_zero_bits_declared
           {| bits := bits_of_bytes [xff; x00; x00; x7f]; pos := 8 |}).
  - simpl. lia.
  - reflexivity.
Defined.

Lemma parse_keeps_region_aux (region : ConstBitStream) :
  only_advances region (Mpi.parse region).2 /\
  match (Mpi.parse region).1 with
  | Raise e =>
      e = ReadError /\
      (pos (Mpi.parse region).2 <= pos region + 16)%nat
  | Return mpi =>
      whole_bytes mpi /\
      Z.of_nat (length (bits mpi)) <= 65536 /\
      pos (Mpi.parse region).2 = (pos region + 16 + length (bits mpi))%nat
  end.
Proof.
  rewrite parse_cases. unfold only_advances, whole_bytes.
  destruct (decide (pos region + 16 <= length (bits region))%nat) as [H16|H16].
  - destruct (decide (pos region + 16 + 8 * declared_bytes region
                      <= length (bits region))%nat) as [Hn|Hn];
      cbn [fst snd bits pos].
    + assert (Hlen : length (take (8 * declared_bytes region)
                               (drop (pos region + 16) (bits region)))
                     = (8 * declared_bytes region)%nat)
        by (rewrite length_take, length_drop; lia).
      rewrite Hlen. pose proof (declared_bytes_bound region).
      repeat split; try lia.
      rewrite Nat.mul_comm. apply Nat.Div0.mod_mul.
    + repeat split; lia.
  - cbn [fst snd]. repeat split; lia.
Qed.

(** X3.  Whatever the region, [Mpi.parse] leaves its data alone, never
    moves the cursor back nor out of the data, and moves it by at most 16 +
    65536 bits.  If it raises, it raises [ReadError] with the cursor at most
    16 bits on; if it returns, the value is a fresh bit string of whole
    bytes, at most 8192 of them, and the cursor has moved by 16 bits plus
    the bits of the value. *)
Theorem parse_keeps_region (region : ConstBitStream) :
  only_advances region (Mpi.parse region).2 /\
  match (Mpi.parse region).1 with
  | Raise e =>
      e = ReadError /\
      (pos (Mpi.parse region).2 <= pos region + 16)%nat
  | Return mpi =>
      whole_bytes mpi /\
      Z.of_nat (length (bits mpi)) <= 65536 /\
      pos (Mpi.parse region).2 = (pos region + 16 + length (bits mpi))%nat
  end.
Proof. exact (parse_keeps_region_aux region). Qed.

(** ** The layouts on any region *)

Lemma parse_many_S (k : nat) (region : ConstBitStream) :
  parse_many (S k) region
  = match Mpi.parse region with
    | (Return mpi, r1) =>
        match parse_many k r1 with
        | (Return rest, r2) => (Return (mpi :: rest), r2)
        | (Raise e, r2) => (Raise e, r2)
        end
    | (Raise e, r1) => (Raise e, r1)
    end.
Proof.
  cbn [parse_many]. unfold bind at 1.
  destruct (Mpi.parse region) as [[mpi|e] r1]; [|reflexivity].
  unfold bind. destruct (parse_many k r1) as [[rest|e] r2]; reflexivity.
Qed.

Lemma consume_in_dispatch (c : Context) (algorithm : PyValue)
    (region : ConstBitStream) :
  consume_in c algorithm region
  = match algorithm with
    | VModule m =>
        match layout_size c m with
        | Some k => parse_many k region
        | None => (Raise TypeError, region)
        end
    | VInt z =>
        (Raise (PGPException (unknown_message c +:+ str_int z)), region)
    end.
Proof.
  destruct algorithm as [m|z]; [|destruct c; reflexivity].
  destruct c, m; try reflexivity;
    cbn [consume_in layout_size];
    unfold Mpi.consume_public, Mpi.consume_private, Mpi.consume_encryption,
      Mpi.rsa_mpis_public, Mpi.rsa_mpis_private, Mpi.elgamal_mpis_public,
      Mpi.elgamal_mpis_private, Mpi.dsa_mpis_public, Mpi.dsa_mpis_private;
    repeat (match goal with
            | |- context [is_ ?a ?m'] =>
                let b := eval vm_compute in (is_ a m') in
                change (is_ a m') with b
            end);
    cbv iota;
    rewrite ?parse_many_S; cbn [parse_many]; unfold bind, ret;
    repeat (match goal with
            | |- context [Mpi.parse ?r] =>
                destruct (Mpi.parse r) as [[?|?] ?]; try reflexivity
            end).
Qed.

Lemma parse_many_returns (k : nat) (region r' : ConstBitStream)
    (mpis : list ConstBitStream) :
  parse_many k region = (Return mpis, r') ->
  length mpis = k /\ Forall whole_bytes mpis /\
  only_advances region r' /\
  pos r' = (pos region + bits_read mpis)%nat.
Proof.
  revert region mpis. induction k as [|k IH]; intros region mpis H.
  - injection H as <- <-.
    split; [reflexivity|]. split; [constructor|].
    split; [apply only_advances_refl|].
    cbn [bits_read]. lia.
  - rewrite parse_many_S in H.
    pose proof (parse_keeps_region_aux region) as Hp.
    destruct (Mpi.parse region) as [[mpi|e] r1]; [|discriminate].
    destruct (parse_many k r1) as [[rest|e] r2] eqn:Hk; [|discriminate].
    injection H as <- <-. destruct (IH _ _ Hk) as (Hl & Hw & Ha & Hpos).
    cbn [fst snd] in Hp. destruct Hp as (Ha1 & Hw1 & _ & Hpos1).
    split; [cbn [length]; lia|]. split; [constructor; assumption|].
    split; [eapply only_advances_trans; eassumption|].
    cbn [bits_read]. lia.
Qed.

Lemma parse_many_raises (k : nat) (region r' : ConstBitStream) (e : Exception) :
  parse_many k region = (Raise e, r') ->
  e = ReadError /\
  exists (j : nat) (mpis : list ConstBitStream) (r_j : ConstBitStream),
    (j < k)%nat /\
    parse_many j region = (Return mpis, r_j) /\
    Mpi.parse r_j = (Raise ReadError, r') /\
    only_advances region r'.
Proof.
  revert region. induction k as [|k IH]; intros region H; [discriminate|].
  rewrite parse_many_S in H.
  pose proof (parse_keeps_region_aux region) as Hp.
  destruct (Mpi.parse region) as [[mpi|e1] r1] eqn:H1.
  - cbn [fst snd] in Hp. destruct Hp as (Ha1 & _).
    destruct (parse_many k r1) as [[rest|e2] r2] eqn:Hk; [discriminate|].
    injection H as <- <-.
    destruct (IH _ Hk) as (-> & j & mpis & r_j & Hj & Hmany & Hfail & Ha).
    split; [reflexivity|].
    exists (S j), (mpi :: mpis), r_j.
    split; [lia|]. split; [rewrite parse_many_S, H1, Hmany; reflexivity|].
    split; [exact Hfail|]. eapply only_advances_trans; eassumption.
  - injection H as <- <-. cbn [fst snd] in Hp. destruct Hp as (Ha1 & -> & _).
    split; [reflexivity|].
    exists 0%nat, [], region.
    split; [lia|]. split; [reflexivity|]. split; [exact H1|exact Ha1].
Qed.

Lemma all_bytes_whole (mpis : list ConstBitStream) :
  Forall whole_bytes mpis ->
  exists values, all_bytes mpis = Return values /\ length values = length mpis.
Proof.
  induction 1 as [|mpi mpis (_ & Hmod) _ (values & Hv & Hl)].
  - exists []. split; reflexivity.
  - exists (bytes_of_bits (bits mpi) :: values). cbn [all_bytes].
    unfold Stream.to_bytes. rewrite decide_True by exact Hmod. rewrite Hv.
    split; [reflexivity|]. cbn [length]. lia.
Qed.

(** X4.  When a dispatcher returns, the algorithm was one of the modules
    it has a branch for, and the values are those of as many successive
    [Mpi.parse] calls as the branch makes (public: RSA 2, ElGamal 3, DSA 4;
    private: RSA 4, ElGamal 1, DSA 1; encryption: RSA 1, ElGamal 2), in
    reading order.  Each value is a fresh bit string of whole bytes, so
    taking [bytes] of each cannot raise; the data of the region are the
    same and its cursor has moved by exactly the prefixes and values read. *)
Theorem layout_returns_its_mpis (c : Context) (algorithm : PyValue)
    (region r' : ConstBitStream) (mpis : list ConstBitStream) :
  consume_in c algorithm region = (Return mpis, r') ->
  exists (m : PyModule) (k : nat),
    algorithm = VModule m /\ layout_size c m = Some k /\
    parse_many k region = (Return mpis, r') /\
    length mpis = k /\
    Forall whole_bytes mpis /\
    (exists values, all_bytes mpis = Return values /\ length values = k) /\
    only_advances region r' /\
    pos r' = (pos region + bits_read mpis)%nat.
Proof.
  rewrite consume_in_dispatch. intros H.
  destruct algorithm as [m|z]; [|discriminate].
  destruct (layout_size c m) as [k|] eqn:Hk; [|discriminate].
  exists m, k.
  destruct (parse_many_returns _ _ _ _ H) as (Hl & Hw & Ha & Hpos).
  destruct (all_bytes_whole _ Hw) as (values & Hv & Hlv).
  repeat (split; [first [reflexivity|assumption]|]).
  split; [exists values; split; [exact Hv|congruence]|].
  split; assumption.
Qed.

Lemma layout_returns_its_mpis_witness :
  exists (m : PyModule) (k : nat),
    VModule ElGamal = VModule m /\ layout_size Public m = Some k /\
    parse_many k (ConstBitStream_of_bytes [x00; x03; x05; x00; x01; x01; x00; x09; x01; xff])
    = (Return [ConstBitStream_of_bytes [x05]; ConstBitStream_of_bytes [x01];
               ConstBitStream_of_bytes [x01; xff]],
       {| bits := bits_of_bytes [x00; x03; x05; x00; x01; x01; x00; x09; x01; xff];
          pos := 80 |}) /\
    length [ConstBitStream_of_bytes [x05]; ConstBitStream_of_bytes [x01];
            ConstBitStream_of_bytes [x01; xff]] = k /\
    Forall whole_bytes [ConstBitStream_of_bytes [x05]; ConstBitStream_of_bytes [x01];
                        ConstBitStream_of_bytes [x01; xff]] /\
    (exists values,
        all_bytes [ConstBitStream_of_bytes [x05]; ConstBitStream_of_bytes [x01];
                   ConstBitStream_of_bytes [x01; xff]] = Return values /\
        length values = k) /\
    only_advances
      (ConstBitStream_of_bytes [x00; x03; x05; x00; x01; x01; x00; x09; x01; xff])
      {| bits := bits_of_bytes [x00; x03; x05; x00; x01; x01; x00; x09; x01; xff];
         pos := 80 |} /\
    pos {| bits := bits_of_bytes [x00; x03; x05; x00; x01; x01; x00; x09; x01; xff];
           pos := 80 |}
    = (pos (ConstBitStream_of_bytes [x00; x03; x05; x00; x01; x01; x00; x09; x01; xff])
       + bits_read [ConstBitStream_of_bytes [x05]; ConstBitStream_of_bytes [x01];
                    ConstBitStream_of_bytes [x01; xff]])%nat.
Proof.
  apply (layout_returns_its_mpis Public (VModule ElGamal)).
  reflexivity.
Defined.

(** X5.  When a dispatcher raises, it is for one of three reasons.  The
    algorithm is a number: [PGPException] with the message of the [else]
    and the number, region untouched.  The algorithm is a module without a
    branch: [TypeError] from the ["%d"], region untouched.  Or one of the
    reads failed: [ReadError], and the region is left where that read left
    it, after the [j] MPIs read before it; nothing is rewound. *)
Theorem layout_raises_three_ways (c : Context) (algorithm : PyValue)
    (region r' : ConstBitStream) (e : Exception) :
  consume_in c algorithm region = (Raise e, r') ->
  (exists z, algorithm = VInt z /\
             e = PGPException (unknown_message c +:+ str_int z) /\
             r' = region) \/
  (exists m, algorithm = VModule m /\ layout_size c m = None /\
             e = TypeError /\ r' = region) \/
  (exists m k j mpis r_j,
      algorithm = VModule m /\ layout_size c m = Some k /\
      e = ReadError /\ (j < k)%nat /\
      parse_many j region = (Return mpis, r_j) /\
      Mpi.parse r_j = (Raise ReadError, r') /\
      only_advances region r').
Proof.
  rewrite consume_in_dispatch. intros H.
  destruct algorithm as [m|z].
  - destruct (layout_size c m) as [k|] eqn:Hk.
    + right. right.
      destruct (parse_many_raises _ _ _ _ H)
        as (-> & j & mpis & r_j & Hj & Hmany & Hfail & Ha).
      exists m, k, j, mpis, r_j. repeat (split; [first [reflexivity|assumption]|]).
      assumption.
    + right. left. injection H as <- <-. exists m. repeat split; assumption.
  - left. injection H as <- <-. exists z. repeat split.
Qed.

Lemma layout_raises_three_ways_witness :
  (exists z, VModule RSA = VInt z /\
             ReadError = PGPException (unknown_message Public +:+ str_int z) /\
             {| bits := bits_of_bytes [x00; x08; xc1; x00; x09; x01]; pos := 40 |}
             = ConstBitStream_of_bytes [x00; x08; xc1; x00; x09; x01]) \/
  (exists m, VModule RSA = VModule m /\ layout_size Public m = None /\
             ReadError = TypeError /\
             {| bits := bits_of_bytes [x00; x08; xc1; x00; x09; x01]; pos := 40 |}
             = ConstBitStream_of_bytes [x00; x08; xc1; x00; x09; x01]) \/
  (exists m k j mpis r_j,
      VModule RSA = VModule m /\ layout_size Public m = Some k /\
      ReadError = ReadError /\ (j < k)%nat /\
      parse_many j (ConstBitStream_of_bytes [x00; x08; xc1; x00; x09; x01])
      = (Return mpis, r_j) /\
      Mpi.parse r_j
      = (Raise ReadError,
         {| bits := bits_of_bytes [x00; x08; xc1; x00; x09; x01]; pos := 40 |}) /\
      only_advances (ConstBitStream_of_bytes [x00; x08; xc1; x00; x09; x01])
        {| bits := bits_of_bytes [x00; x08; xc1; x00; x09; x01]; pos := 40 |}).
Proof.
  apply (layout_raises_three_ways Public (VModule RSA)
           (ConstBitStream_of_bytes [x00; x08; xc1; x00; x09; x01])).
  reflexivity.
Defined.

Lemma parse_many_encoded (values : list (list byte)) (pre post : list bool) :
  Forall (fun v => 8 * Z.of_nat (length v) < 65536) values ->
  parse_many (length values)
    {| bits := pre ++ bits_of_bytes (encode_all values) ++ post;
       pos := length pre |}
  = (Return (List.map ConstBitStream_of_bytes values),
     {| bits := pre ++ bits_of_bytes (encode_all values) ++ post;
        pos := length pre + 8 * length (encode_all values) |}).
Proof.
  intros Hall. revert pre.
  induction Hall as [|v values Hv _ IH]; intros pre.
  - cbn [length parse_many encode_all List.map concat]. unfold ret.
    do 2 f_equal. lia.
  - cbn [length List.map]. rewrite parse_many_S.
    assert (Henc : encode_all (v :: values)
                   = mpi_encode (8 * Z.of_nat (length v)) v ++ encode_all values)
      by reflexivity.
    rewrite Henc, bits_of_bytes_app, <- (app_assoc (bits_of_bytes _)).
    rewrite parse_encoded by lia.
    assert (Hlen : length (bits_of_bytes (mpi_encode (8 * Z.of_nat (length v)) v))
                   = (16 + 8 * length v)%nat)
      by (rewrite bits_of_bytes_length; cbn [mpi_encode length]; lia).
    replace (length pre + 16 + 8 * length v)%nat
      with (length (pre ++ bits_of_bytes (mpi_encode (8 * Z.of_nat (length v)) v)))
      by (rewrite length_app, Hlen; lia).
    rewrite (app_assoc pre), IH. do 2 f_equal.
    rewrite !length_app, Hlen. cbn [mpi_encode length]. lia.
Qed.

Lemma all_bytes_of_bytes (values : list (list byte)) :
  all_bytes (List.map ConstBitStream_of_bytes values) = Return values.
Proof.
  induction values as [|v values IH]; [reflexivity|].
  cbn [List.map all_bytes]. rewrite to_bytes_of_bytes, IH. reflexivity.
Qed.

(** X6.  Key material written as MPIs of whole bytes is read back as it
    was: when a region holds, at its cursor, the encodings of as many byte
    strings as the layout of the algorithm has MPIs, the dispatcher returns
    those byte strings in order and stops right after them, whatever comes
    before and after in the region. *)
Theorem layout_round_trip (c : Context) (m : PyModule)
    (values : list (list byte)) (pre post : list bool) :
  layout_size c m = Some (length values) ->
  Forall (fun v => 8 * Z.of_nat (length v) < 65536) values ->
  consume_in c (VModule m)
    {| bits := pre ++ bits_of_bytes (encode_all values) ++ post;
       pos := length pre |}
  = (Return (List.map ConstBitStream_of_bytes values),
     {| bits := pre ++ bits_of_bytes (encode_all values) ++ post;
        pos := length pre + 8 * length (encode_all values) |}) /\
  all_bytes (List.map ConstBitStream_of_bytes values) = Return values.
Proof.
  intros Hk Hall. split; [|apply all_bytes_of_bytes].
  rewrite consume_in_dispatch, Hk. apply parse_many_encoded, Hall.
Qed.

Lemma layout_round_trip_witness :
  consume_in Private (VModule RSA)
    {| bits := [true] ++ bits_of_bytes
                           (encode_all [[x0d]; [x0b; x01]; []; [x07]]) ++ [false];
       pos := length [true] |}
  = (Return (List.map ConstBitStream_of_bytes [[x0d]; [x0b; x01]; []; [x07]]),
     {| bits := [true] ++ bits_of_bytes
                            (encode_all [[x0d]; [x0b; x01]; []; [x07]]) ++ [false];
        pos := length [true]
               + 8 * length (encode_all [[x0d]; [x0b; x01]; []; [x07]]) |}) /\
  all_bytes (List.map ConstBitStream_of_bytes [[x0d]; [x0b; x01]; []; [x07]])
  = Return [[x0d]; [x0b; x01]; []; [x07]].
Proof.
  apply (layout_round_trip Private RSA [[x0d]; [x0b; x01]; []; [x07]]).
  - reflexivity.
  - repeat constructor.
Defined.

(** ** [PKCS.consume] around the unpadding *)

Lemma consume_before_unpad (key_algorithm : PyValue) (key : Key) (w : World) :
  PKCS.consume key_algorithm key w
  = match decrypted_buffer key_algorithm key w with
    | Return buf =>
        PKCS.unpad {| region := region_after key_algorithm w;
                      padded := ConstBitStream_of_bytes buf;
                      entropy := entropy w; drawn := drawn w; log := log w |}
    | Raise e =>
        (Raise e, {| region := region_after key_algorithm w;
                     padded := padded w;
                     entropy := entropy w; drawn := drawn w; log := log w |})
    end.
Proof.
  unfold decrypted_buffer, region_after.
  rewrite consume_unfold. unfold bind at 1. unfold on_region.
  destruct (Mpi.consume_encryption key_algorithm (region w)) as [[parsed|e] r'];
    [|reflexivity].
  unfold bind at 1. unfold lift_outcome at 1.
  destruct (all_bytes parsed) as [mpis|e]; [|reflexivity].
  unfold bind at 1. unfold lift_outcome at 1.
  destruct (decrypt key mpis) as [buf|e]; reflexivity.
Qed.

(** Where [PKCS.unpad] leaves the world, whatever the buffer. *)
Lemma unpad_world (w : World) (buf : list byte) :
  padded w = ConstBitStream_of_bytes buf ->
  exists accesses,
    (PKCS.unpad w).2 = consumed w (region w) buf accesses /\
    Forall is_padded_access accesses.
Proof.
  intros Hp. destruct buf as [|b rest].
  - exists [Ev_padded 0 0]. split; [|repeat constructor].
    start_unpad w (@nil byte) Hp.
    erewrite bind_Raise
      by (apply on_padded_step; apply read_bytes_short; cbn [length]; lia).
    cbn [snd pos]. rewrite <- app_assoc. reflexivity.
  - destruct (decide (b = x02)) as [->|Hb].
    + destruct (split_at_zero rest) as [Hps|(ps & rest' & -> & Hps)].
      * eexists. rewrite (unpad_no_separator w rest Hp Hps).
        split; [reflexivity|repeat constructor].
      * destruct (le_lt_dec 8 (length ps)) as [Hlen|Hlen].
        -- eexists. rewrite (unpad_well_formed w ps rest' Hp Hps Hlen).
           split; [reflexivity|repeat constructor].
        -- eexists. rewrite (unpad_short_padding w ps rest' Hp Hps Hlen).
           split; [reflexivity|repeat constructor].
    + eexists. rewrite (unpad_wrong_first_byte w b rest Hp Hb).
      split; [reflexivity|repeat constructor].
Qed.

(** What [PKCS.unpad] returns, if it returns. *)
Lemma unpad_result (w : World) (buf : list byte) (out : ConstBitStream) :
  padded w = ConstBitStream_of_bytes buf ->
  (PKCS.unpad w).1 = Return out ->
  out = ConstBitStream_of_bytes (next_entropy w 19) \/
  exists ps payload,
    buf = x02 :: ps ++ x00 :: payload /\
    Forall (fun b => b <> x00) ps /\ (8 <= length ps)%nat /\
    out = ConstBitStream_of_bytes payload.
Proof.
  intros Hp. destruct buf as [|b rest].
  - destruct (unpad_empty w Hp) as (w' & -> & _). discriminate.
  - destruct (decide (b = x02)) as [->|Hb].
    + destruct (split_at_zero rest) as [Hps|(ps & rest' & -> & Hps)].
      * rewrite (unpad_no_separator w rest Hp Hps). cbn [fst].
        intros [= <-]. left. reflexivity.
      * destruct (le_lt_dec 8 (length ps)) as [Hlen|Hlen].
        -- rewrite (unpad_well_formed w ps rest' Hp Hps Hlen). cbn [fst].
           intros [= <-]. right. exists ps, rest'. repeat split; assumption.
        -- rewrite (unpad_short_padding w ps rest' Hp Hps Hlen). cbn [fst].
           intros [= <-]. left. reflexivity.
    + rewrite (unpad_wrong_first_byte w b rest Hp Hb). cbn [fst].
      intros [= <-]. left. reflexivity.
Qed.

(** X7.  When reading the MPIs, taking their bytes or [key.decrypt] raises,
    [PKCS.consume] raises the same exception at once: no random byte is
    drawn, [padded] is never allocated nor read, and the region stays where
    the MPI reads left it. *)
Theorem consume_fails_before_unpadding (key_algorithm : PyValue) (key : Key)
    (w : World) (e : Exception) :
  decrypted_buffer key_algorithm key w = Raise e ->
  PKCS.consume key_algorithm key w
  = (Raise e, {| region := region_after key_algorithm w;
                 padded := padded w;
                 entropy := entropy w; drawn := drawn w; log := log w |}).
Proof. intros H. rewrite consume_before_unpad, H. reflexivity. Qed.

Lemma consume_fails_before_unpadding_witness :
  PKCS.consume (VModule RSA) Sample.key (Sample.world [x00; x20; x02])
  = (Raise ReadError,
     {| region := region_after (VModule RSA) (Sample.world [x00; x20; x02]);
        padded := padded (Sample.world [x00; x20; x02]);
        entropy := entropy (Sample.world [x00; x20; x02]);
        drawn := drawn (Sample.world [x00; x20; x02]);
        log := log (Sample.world [x00; x20; x02]) |}).
Proof.
  apply (consume_fails_before_unpadding (VModule RSA) Sample.key
           (Sample.world [x00; x20; x02]) ReadError).
  reflexivity.
Defined.

(** X8.  What [PKCS.consume] returns is either the stream over the 19
    random bytes or the stream over what follows the separator of a
    well-formed buffer: bytes of the decrypted buffer come back only when
    it is 0x02, at least eight non-zero bytes, 0x00 and those bytes. *)
Theorem consume_returns_fallback_or_payload (key_algorithm : PyValue)
    (key : Key) (w w' : World) (buf : list byte) (out : ConstBitStream) :
  decrypted_buffer key_algorithm key w = Return buf ->
  PKCS.consume key_algorithm key w = (Return out, w') ->
  out = ConstBitStream_of_bytes (next_entropy w 19) \/
  exists ps payload,
    buf = x02 :: ps ++ x00 :: payload /\
    Forall (fun b => b <> x00) ps /\ (8 <= length ps)%nat /\
    out = ConstBitStream_of_bytes payload.
Proof.
  intros Hbuf Hrun. rewrite consume_before_unpad, Hbuf in Hrun.
  apply (f_equal fst) in Hrun. cbn [fst] in Hrun.
  exact (unpad_result
           {| region := region_after key_algorithm w;
              padded := ConstBitStream_of_bytes buf;
              entropy := entropy w; drawn := drawn w; log := log w |}
           buf out eq_refl Hrun).
Qed.

Lemma consume_returns_fallback_or_payload_witness :
  ConstBitStream_of_bytes
    (next_entropy (Sample.world [x00; x18; x02; x00; x41]) 19)
  = ConstBitStream_of_bytes
      (next_entropy (Sample.world [x00; x18; x02; x00; x41]) 19) \/
  exists ps payload,
    [x02; x00; x41] = x02 :: ps ++ x00 :: payload /\
    Forall (fun b => b <> x00) ps /\ (8 <= length ps)%nat /\
    ConstBitStream_of_bytes
      (next_entropy (Sample.world [x00; x18; x02; x00; x41]) 19)
    = ConstBitStream_of_bytes payload.
Proof.
  apply (consume_returns_fallback_or_payload (VModule RSA) Sample.key
           (Sample.world [x00; x18; x02; x00; x41])
           (PKCS.consume (VModule RSA) Sample.key
              (Sample.world [x00; x18; x02; x00; x41])).2
           [x02; x00; x41]).
  - reflexivity.
  - vm_compute. reflexivity.
Defined.

(** X9.  Once the buffer is decrypted, [PKCS.consume] draws exactly 19
    random bytes, first thing and whatever the buffer holds (good padding,
    bad padding, no byte at all); every later effect is an access to
    [padded], which ends read to its end, and the region is where the MPI
    reads left it. *)
Theorem consume_draws_nineteen_bytes (key_algorithm : PyValue) (key : Key)
    (w : World) (buf : list byte) :
  decrypted_buffer key_algorithm key w = Return buf ->
  exists accesses,
    (PKCS.consume key_algorithm key w).2
    = {| region := region_after key_algorithm w;
         padded := {| bits := bits_of_bytes buf; pos := 8 * length buf |};
         entropy := entropy w;
         drawn := drawn w + 19;
         log := log w ++ Ev_random 19 :: accesses |} /\
    Forall is_padded_access accesses.
Proof.
  intros Hbuf. rewrite consume_before_unpad, Hbuf.
  destruct (unpad_world
              {| region := region_after key_algorithm w;
                 padded := ConstBitStream_of_bytes buf;
                 entropy := entropy w; drawn := drawn w; log := log w |}
              buf eq_refl) as (accesses & Hw & Hacc).
  exists accesses. split; [exact Hw|exact Hacc].
Qed.

Lemma consume_draws_nineteen_bytes_witness :
  exists accesses,
    (PKCS.consume (VModule RSA) Sample.key (Sample.world [x00; x00])).2
    = {| region := region_after (VModule RSA) (Sample.world [x00; x00]);
         padded := {| bits := bits_of_bytes []; pos := 8 * length (@nil byte) |};
         entropy := entropy (Sample.world [x00; x00]);
         drawn := drawn (Sample.world [x00; x00]) + 19;
         log := log (Sample.world [x00; x00]) ++ Ev_random 19 :: accesses |} /\
    Forall is_padded_access accesses.
Proof.
  apply (consume_draws_nineteen_bytes (VModule RSA) Sample.key
           (Sample.world [x00; x00]) []).
  reflexivity.
Defined.

(** X10.  The byte strings handed to [key.decrypt] are the values of the
    MPIs in the order they stand in the region: with the encodings of
    [values] at the cursor, as many as the session-key layout of the
    algorithm reads, [PKCS.consume] raises what [key.decrypt values]
    raises, or goes on to unpad what it returns; the region cursor stops
    right after the encodings. *)
Theorem consume_decrypts_the_mpis (m : PyModule) (key : Key) (w : World)
    (values : list (list byte)) (pre post : list bool) :
  layout_size Encryption m = Some (length values) ->
  Forall (fun v => 8 * Z.of_nat (length v) < 65536) values ->
  region w = {| bits := pre ++ bits_of_bytes (encode_all values) ++ post;
                pos := length pre |} ->
  PKCS.consume (VModule m) key w
  = match decrypt key values with
    | Return buf =>
        PKCS.unpad
          {| region := {| bits := bits (region w);
                          pos := length pre + 8 * length (encode_all values) |};
             padded := ConstBitStream_of_bytes buf;
             entropy := entropy w; drawn := drawn w; log := log w |}
    | Raise e =>
        (Raise e,
         {| region := {| bits := bits (region w);
                         pos := length pre + 8 * length (encode_all values) |};
            padded := padded w;
            entropy := entropy w; drawn := drawn w; log := log w |})
    end.
Proof.
  intros Hk Hall Hregion.
  rewrite consume_before_unpad. unfold decrypted_buffer, region_after.
  change (Mpi.consume_encryption (VModule m))
    with (consume_in Encryption (VModule m)).
  rewrite Hregion, consume_in_dispatch, Hk, parse_many_encoded by exact Hall.
  rewrite all_bytes_of_bytes. cbn [snd bits].
  destruct (decrypt key values); reflexivity.
Qed.

Lemma consume_decrypts_the_mpis_witness :
  PKCS.consume (VModule ElGamal) Sample.key
    {| region := {| bits := [] ++ bits_of_bytes (encode_all [[x02]; [x00; x41]]) ++ [];
                    pos := length (@nil bool) |};
       padded := ConstBitStream_of_bytes [];
       entropy := Sample.source; drawn := 0; log := [] |}
  = PKCS.unpad
      {| region := {| bits := [] ++ bits_of_bytes (encode_all [[x02]; [x00; x41]]) ++ [];
                      pos := length (@nil bool)
                             + 8 * length (encode_all [[x02]; [x00; x41]]) |};
         padded := ConstBitStream_of_bytes [x02; x00; x41];
         entropy := Sample.source; drawn := 0; log := [] |}.
Proof.
  apply (consume_decrypts_the_mpis ElGamal Sample.key
           {| region := {| bits := [] ++ bits_of_bytes (encode_all [[x02]; [x00; x41]]) ++ [];
                           pos := length (@nil bool) |};
              padded := ConstBitStream_of_bytes [];
              entropy := Sample.source; drawn := 0; log := [] |}
           [[x02]; [x00; x41]] [] []).
  - reflexivity.
  - repeat constructor.
  - reflexivity.
Defined.

(** ** The other tables *)

Lemma getitem_as_MappingOf {V} (self : Mapping V) (key : Z) :
  Mapping_getitem self key
  = MappingOf_getitem str_int (mkMappingOf (type self) (map self)) key.
Proof. reflexivity. Qed.

(** X11.  [Algorithms.hashes] holds SHA under 2 and SHA256 under 8,
    [Algorithms.encryption] holds CAST under 3; any other code raises
    [NotImplementedError] with the name of the table and the code. *)
Theorem hashes_and_encryption_lookup (code : Z) :
  Mapping_getitem Algorithms.hashes code
  = (if bool_decide (code = 2) then Return SHA
     else if bool_decide (code = 8) then Return SHA256
     else Raise (NotImplementedError
                   ("Haven't implemented Hash Algorithm : " +:+ str_int code))) /\
  Mapping_getitem Algorithms.encryption code
  = (if bool_decide (code = 3) then Return CAST
     else Raise (NotImplementedError
                   ("Haven't implemented Symmetric encryption algorithm : "
                    +:+ str_int code))).
Proof.
  split.
  - case_bool_decide as H2; [subst; reflexivity|].
    case_bool_decide as H8; [subst; reflexivity|].
    apply (getitem_missing Algorithms.hashes). cbn [Algorithms.hashes map].
    rewrite !lookup_insert_ne by congruence. apply lookup_empty.
  - case_bool_decide as H3; [subst; reflexivity|].
    apply (getitem_missing Algorithms.encryption).
    cbn [Algorithms.encryption map].
    rewrite lookup_insert_ne by congruence. apply lookup_empty.
Qed.

(** X12.  Every cipher that [Algorithms.encryption] can return has a key
    size in [Ciphers.key_sizes], 16 bytes; asking the size of any other
    module raises [NotImplementedError] naming the table and the module. *)
Theorem registered_cipher_has_key_size (str_module : PyModule -> string)
    (code : Z) (cipher : PyModule) :
  Mapping_getitem Algorithms.encryption code = Return cipher ->
  MappingOf_getitem str_module Ciphers.key_sizes cipher = Return 16 /\
  (forall other : PyModule,
      other <> cipher ->
      MappingOf_getitem str_module Ciphers.key_sizes other
      = Raise (NotImplementedError
                 ("Haven't implemented Cipher key size : " +:+ str_module other))).
Proof.
  intros H.
  assert (Hc : cipher = CAST).
  { unfold Mapping_getitem in H. cbn [Algorithms.encryption map] in H.
    destruct (decide (code = 3)) as [->|Hne].
    - rewrite lookup_insert_eq in H. congruence.
    - rewrite lookup_insert_ne, lookup_empty in H by congruence. discriminate. }
  subst cipher. split; [reflexivity|].
  intros other Hother. unfold MappingOf_getitem.
  cbn [Ciphers.key_sizes map_of type_of].
  rewrite lookup_insert_ne, lookup_empty by congruence. reflexivity.
Qed.

Lemma registered_cipher_has_key_size_witness :
  MappingOf_getitem (fun _ => "<module>") Ciphers.key_sizes CAST = Return 16 /\
  (forall other : PyModule,
      other <> CAST ->
      MappingOf_getitem (fun _ => "<module>") Ciphers.key_sizes other
      = Raise (NotImplementedError
                 ("Haven't implemented Cipher key size : " +:+ "<module>"))).
Proof.
  apply (registered_cipher_has_key_size (fun _ => "<module>") 3 CAST).
  reflexivity.
Defined.

(** ** [dump] *)

Example dump_three : dump [x00; x0a; xff] = "00 0a ff".
Proof. reflexivity. Qed.

Lemma format_02x_two (b : byte) :
  exists c1 c2, format_02x (Byte.to_N b) = String c1 (String c2 "").
Proof. destruct b; eexists _, _; reflexivity. Qed.

Lemma byte_of_hex_format (b : byte) :
  byte_of_hex (format_02x (Byte.to_N b)) = Some b.
Proof. destruct b; reflexivity. Qed.

Lemma dump_cons_cons (a b : byte) (l : list byte) :
  dump (a :: b :: l) = format_02x (Byte.to_N a) +:+ " " +:+ dump (b :: l).
Proof. reflexivity. Qed.

Lemma dump_cons_cons_shape (a b : byte) (l : list byte) :
  exists c1 c2,
    format_02x (Byte.to_N a) = String c1 (String c2 "") /\
    dump (a :: b :: l) = String c1 (String c2 (String space (dump (b :: l)))).
Proof.
  destruct (format_02x_two a) as (c1 & c2 & H). exists c1, c2.
  split; [exact H|]. rewrite dump_cons_cons, H. reflexivity.
Qed.


(** X14.  [dump] loses nothing: two byte strings with the same dump are
    the same byte string. *)
Theorem dump_injective (xs ys : list byte) :
  dump xs = dump ys -> xs = ys.
Proof.
  revert ys. induction xs as [|x [|x' xs] IH]; intros ys H.
  - destruct ys as [|y [|y' ys]]; [reflexivity|exfalso..].
    + destruct (format_02x_two y) as (c1 & c2 & Hy).
      change (dump [y]) with (format_02x (Byte.to_N y)) in H.
      rewrite Hy in H. discriminate.
    + destruct (dump_cons_cons_shape y y' ys) as (c1 & c2 & _ & Hy).
      rewrite Hy in H. discriminate.
  - destruct (format_02x_two x) as (c1 & c2 & Hx).
    change (dump [x]) with (format_02x (Byte.to_N x)) in H.
    destruct ys as [|y [|y' ys]].
    + rewrite Hx in H. discriminate.
    + change (dump [y]) with (format_02x (Byte.to_N y)) in H.
      assert (E : Some x = Some y)
        by (rewrite <- (byte_of_hex_format x), H; apply byte_of_hex_format).
      congruence.
    + destruct (dump_cons_cons_shape y y' ys) as (d1 & d2 & _ & Hy).
      rewrite Hx, Hy in H. discriminate.
  - destruct (dump_cons_cons_shape x x' xs) as (c1 & c2 & Hx & Hxs).
    rewrite Hxs in H.
    destruct ys as [|y [|y' ys]].
    + discriminate.
    + destruct (format_02x_two y) as (d1 & d2 & Hy).
      change (dump [y]) with (format_02x (Byte.to_N y)) in H.
      rewrite Hy in H. discriminate.
    + destruct (dump_cons_cons_shape y y' ys) as (d1 & d2 & Hy & Hys).
      rewrite Hys in H. injection H as -> -> Hrest.
      assert (E : Some x = Some y)
        by (rewrite <- (byte_of_hex_format x), Hx, <- Hy;
            apply byte_of_hex_format).
      apply IH in Hrest. congruence.
Qed.

Lemma dump_injective_witness : [x00; xff] = [x00; xff].
Proof. apply (dump_injective [x00; xff] [x00; xff]). reflexivity. Defined.

(** X15.  The dump of two byte strings put end to end is their dumps with a
    space between, when neither is empty. *)
Theorem dump_app (xs ys : list byte) :
  xs <> [] -> ys <> [] ->
  dump (xs ++ ys) = dump xs +:+ " " +:+ dump ys.
Proof.
  intros Hx Hy. induction xs as [|x [|x' xs] IH]; [contradiction| |].
  - destruct ys as [|y ys]; [contradiction|]. apply dump_cons_cons.
  - cbn [app]. rewrite !dump_cons_cons.
    change (x' :: xs ++ ys) with ((x' :: xs) ++ ys).
    rewrite IH by discriminate.
    destruct (format_02x_two x) as (c1 & c2 & ->). reflexivity.
Qed.

Lemma dump_app_witness :
  dump ([x01] ++ [x02; x03]) = dump [x01] +:+ " " +:+ dump [x02; x03].
Proof. apply (dump_app [x01] [x02; x03]); discriminate. Defined.

(** ** [ValueTracker] *)

Example tracker_nested :
  Tracker.consumed Tracker.Ok 3
    (Tracker.start_item "c"
       (Tracker.mkTracker
          [Tracker.mkItem [1%nat] None None;
           Tracker.mkItem [2%nat] (Some "a") (Some 0%nat);
           Tracker.mkItem [] (Some "b") (Some 1%nat)]
          0 (Some 0%nat)))
  = Tracker.Ok
      [Tracker.Node "a" [Tracker.Node "b" []]; Tracker.Node "c" []].
Proof. reflexivity. Qed.

Example tracker_run :
  match Tracker.run [Tracker.Start "a"; Tracker.Start "b"; Tracker.End_;
                     Tracker.End_; Tracker.Start "c"] Tracker.new with
  | Tracker.Ok t => Tracker.consumed Tracker.Ok 3 t
  | Tracker.Fail e => Tracker.Fail e
  end
  = Tracker.Ok
      [Tracker.Node "a" [Tracker.Node "b" []]; Tracker.Node "c" []].
Proof. reflexivity. Qed.

Example tracker_unbalanced :
  Tracker.run [Tracker.Start "a"; Tracker.End_; Tracker.End_] Tracker.new
  = Tracker.Fail (Tracker.KeyError "parent").
Proof. reflexivity. Qed.

Section TrackerFacts.

Variable Info : Type.

Lemma tracker_tree_ind {V} (P : Tracker.Tree V -> Prop) :
  (forall v kids, Forall P kids -> P (Tracker.Node v kids)) ->
  forall t, P t.
Proof.
  intros H. fix IH 1. intros [v kids]. apply H.
  induction kids as [|k kids IHk]; constructor; [apply IH|exact IHk].
Qed.

Lemma Forall2_upgrade {A B} (R R' : A -> B -> Prop) (P : B -> Prop)
    (l : list A) (k : list B) :
  Forall P k -> Forall2 R l k ->
  (forall a b, P b -> R a b -> R' a b) ->
  Forall2 R' l k.
Proof.
  intros HP HR Himp. revert HP.
  induction HR as [|a b l k Hab _ IH]; intros HP; [constructor|].
  inversion HP; subst. constructor; [apply Himp; assumption|apply IH; assumption].
Qed.

Lemma tracker_run_app (calls1 calls2 : list (Tracker.Call Info))
    (t : Tracker.ValueTracker Info) :
  Tracker.run (calls1 ++ calls2) t
  = match Tracker.run calls1 t with
    | Tracker.Ok t' => Tracker.run calls2 t'
    | Tracker.Fail e => Tracker.Fail e
    end.
Proof.
  revert t. induction calls1 as [|[item|] calls1 IH]; intros t; cbn [app Tracker.run].
  - reflexivity.
  - apply IH.
  - destruct (Tracker.end_item t); [apply IH|reflexivity].
Qed.

Lemma repr_frame (lo hi : nat) (h h' : list (Tracker.Item Info))
    (tree : Tracker.Tree Info) :
  (forall l, (lo <= l < hi)%nat -> h' !! l = h !! l) ->
  forall c, Tracker.repr lo hi h c tree -> Tracker.repr lo hi h' c tree.
Proof.
  intros Hagree. induction tree as [v kids IH] using tracker_tree_ind.
  intros c H. inversion H as [c' d v' kids' Hc Hd Hv Hkids]; subst.
  apply Tracker.repr_node with d;
    [exact Hc|rewrite Hagree by exact Hc; exact Hd|exact Hv|].
  apply (Forall2_upgrade _ _ _ _ _ IH Hkids). intros a b Hb. apply Hb.
Qed.

Lemma repr_weaken (lo hi lo' hi' : nat) (h : list (Tracker.Item Info))
    (tree : Tracker.Tree Info) :
  (lo' <= lo)%nat -> (hi <= hi')%nat ->
  forall c, Tracker.repr lo hi h c tree -> Tracker.repr lo' hi' h c tree.
Proof.
  intros Hlo Hhi. induction tree as [v kids IH] using tracker_tree_ind.
  intros c H. inversion H as [c' d v' kids' Hc Hd Hv Hkids]; subst.
  apply Tracker.repr_node with d; [lia|exact Hd|exact Hv|].
  apply (Forall2_upgrade _ _ _ _ _ IH Hkids). intros a b Hb. apply Hb.
Qed.


Lemma tracker_eta (t : Tracker.ValueTracker Info) :
  Tracker.mkTracker (Tracker.heap t) (Tracker._items t) (Tracker._current t) = t.
Proof. destruct t. reflexivity. Qed.

Lemma forest_of_trees (forest : list (Tracker.Tree Info)) :
  Forall Tracker.records_tree forest -> Tracker.records_forest forest.
Proof.
  induction 1 as [|tree rest Htree _ IH]; intros t Hp.
  - exists (Tracker.heap t), []. split; [cbn; rewrite tracker_eta; reflexivity|].
    unfold Tracker.recorded. split; [lia|]. split; [reflexivity|].
    split; [|constructor].
    intros [its info par] Hd. cbn [Tracker.items_of Tracker.info_of Tracker.parent_of].
    rewrite app_nil_r. exact Hd.
  - destruct (Htree t Hp) as (h1 & Hrun1 & Hlen1 & Hsame1 & Hat1 & Hrepr1).
    set (p := Tracker.attach_point t) in *.
    set (t1 := Tracker.mkTracker h1 (Tracker._items t) (Some p)) in *.
    assert (Hp1 : (Tracker.attach_point t1 < length (Tracker.heap t1))%nat)
      by (cbn; lia).
    destruct (IH t1 Hp1) as (h2 & cs & Hrun2 & Hlen2 & Hsame2 & Hat2 & Hrepr2).
    cbn [Tracker.heap Tracker._items Tracker._current Tracker.attach_point t1]
      in Hlen2, Hsame2, Hat2, Hrepr2, Hrun2.
    exists h2, (length (Tracker.heap t) :: cs). split.
    + change (Tracker.record_all (tree :: rest))
        with (Tracker.record tree ++ Tracker.record_all rest).
      rewrite tracker_run_app, Hrun1. fold t1. rewrite Hrun2.
      destruct rest; reflexivity.
    + unfold Tracker.recorded. fold p.
      split; [lia|]. split; [|split].
      * intros l Hl Hne. rewrite Hsame2 by lia. apply Hsame1; assumption.
      * intros d Hd. rewrite (Hat2 _ (Hat1 _ Hd)).
        cbn [Tracker.items_of Tracker.info_of Tracker.parent_of].
        rewrite <- app_assoc. reflexivity.
      * constructor.
        -- inversion Hrepr1 as [|? ? ? ? Hhead _]; subst.
           apply (repr_weaken (length (Tracker.heap t)) (length h1)); [lia..|].
           apply (repr_frame _ _ h1); [|exact Hhead].
           intros l Hl. apply Hsame2; lia.
        -- apply (Forall2_impl _ _ _ _ Hrepr2). intros c tr.
           apply repr_weaken; lia.
Qed.

Lemma tree_of_forest (v : Info) (kids : list (Tracker.Tree Info)) :
  Tracker.records_forest kids -> Tracker.records_tree (Tracker.Node v kids).
Proof.
  intros Hkids t Hp.
  set (p := Tracker.attach_point t) in *.
  set (h := Tracker.heap t) in *.
  set (c := length h).
  set (t1 := Tracker.start_item v t).
  assert (Hh1 : Tracker.heap t1
                = alter (fun d => Tracker.mkItem (Tracker.items_of d ++ [c])
                                    (Tracker.info_of d) (Tracker.parent_of d))
                    p (h ++ [Tracker.mkItem [] (Some v) (Some p)]))
    by reflexivity.
  assert (Hlen1 : length (Tracker.heap t1) = S (length h))
    by (rewrite Hh1, length_alter, length_app; cbn [length]; lia).
  assert (Hc1 : Tracker.heap t1 !! c
                = Some (Tracker.mkItem [] (Some v) (Some p))).
  { rewrite Hh1, list_lookup_alter_ne by (unfold c; lia).
    apply list_lookup_middle. reflexivity. }
  assert (Hp1 : (Tracker.attach_point t1 < length (Tracker.heap t1))%nat)
    by (rewrite Hlen1; cbn; fold h; lia).
  destruct (Hkids t1 Hp1) as (h2 & cs & Hrun2 & Hlen2 & Hsame2 & Hat2 & Hrepr2).
  change (Tracker.attach_point t1) with c in Hsame2, Hat2, Hrun2.
  change (Tracker._items t1) with (Tracker._items t) in Hrun2.
  change (Tracker._current t1) with (Some c) in Hrun2.
  assert (Hrun2' : Tracker.run (Tracker.record_all kids) t1
                   = Tracker.Ok (Tracker.mkTracker h2 (Tracker._items t) (Some c)))
    by (rewrite Hrun2; destruct kids; reflexivity).
  specialize (Hat2 _ Hc1).
  cbn [Tracker.items_of Tracker.info_of Tracker.parent_of app] in Hat2.
  exists h2. split.
  - change (Tracker.record (Tracker.Node v kids))
      with (Tracker.Start v :: Tracker.record_all kids ++ [Tracker.End_]).
    cbn [Tracker.run]. fold t1. rewrite tracker_run_app, Hrun2'.
    cbn [Tracker.run]. unfold Tracker.end_item.
    cbn [Tracker._current Tracker.heap Tracker._items]. rewrite Hat2.
    reflexivity.
  - unfold Tracker.recorded. fold p h c.
    split; [lia|]. split; [|split].
    + intros l Hl Hne. rewrite Hsame2 by (unfold c; lia).
      rewrite Hh1, list_lookup_alter_ne by congruence.
      apply lookup_app_l. exact Hl.
    + intros d Hd. rewrite Hsame2 by (unfold c; lia).
      rewrite Hh1, list_lookup_alter_eq, lookup_app_l by exact Hp.
      rewrite Hd. reflexivity.
    + constructor; [|constructor].
      apply Tracker.repr_node with (Tracker.mkItem cs (Some v) (Some p));
        [unfold c; lia|exact Hat2|reflexivity|].
      cbn [Tracker.items_of].
      apply (Forall2_impl _ _ _ _ Hrepr2). intros c' tr.
      apply repr_weaken; lia.
Qed.

Lemma records_every_tree (tree : Tracker.Tree Info) : Tracker.records_tree tree.
Proof.
  induction tree as [v kids IH] using tracker_tree_ind.
  apply tree_of_forest, forest_of_trees, IH.
Qed.

Lemma records_every_forest (forest : list (Tracker.Tree Info)) :
  Tracker.records_forest forest.
Proof.
  apply forest_of_trees, Forall_forall. intros tree _. apply records_every_tree.
Qed.

End TrackerFacts.

Section TrackerTraversal.

Variables Info V : Type.
Variable f : Info -> V.

Lemma mapM_Forall2 {A B} (g : A -> Tracker.Checked B) (l : list A) (k : list B) :
  Forall2 (fun a b => g a = Tracker.Ok b) l k -> Tracker.mapM g l = Tracker.Ok k.
Proof.
  induction 1 as [|a b l k Hab _ IH]; [reflexivity|].
  cbn [Tracker.mapM]. rewrite Hab, IH. reflexivity.
Qed.

Lemma mapM_Forall {A B} (g : A -> Tracker.Checked B) (l : list A) :
  Forall (fun a => exists b, g a = Tracker.Ok b) l ->
  exists k, Tracker.mapM g l = Tracker.Ok k.
Proof.
  induction 1 as [|a l (b & Hb) _ (k & Hk)]; [exists []; reflexivity|].
  exists (b :: k). cbn [Tracker.mapM]. rewrite Hb, Hk. reflexivity.
Qed.

Lemma height_children (kids : list (Tracker.Tree Info)) :
  Forall (fun k => (Tracker.height k
                    <= foldr Nat.max 0 (List.map Tracker.height kids))%nat) kids.
Proof.
  induction kids as [|k kids IH]; constructor; cbn [List.map foldr]; [lia|].
  apply (Forall_impl _ _ _ IH). intros k' Hk'. lia.
Qed.

Lemma visit_repr (lo hi : nat) (h : list (Tracker.Item Info))
    (tree : Tracker.Tree Info) :
  forall c fuel,
    Tracker.repr lo hi h c tree ->
    (Tracker.height tree <= fuel)%nat ->
    Tracker.visit (fun i => Tracker.Ok (f i)) h
      (Tracker.items (fun i => Tracker.Ok (f i)) fuel h) c
    = Tracker.Ok (Tracker.tree_map f tree).
Proof.
  induction tree as [v kids IH] using tracker_tree_ind.
  intros c fuel H Hfuel.
  inversion H as [c' d v' kids' Hc Hd Hv Hkids]; subst.
  cbn [Tracker.height] in Hfuel.
  destruct fuel as [|fuel]; [lia|].
  unfold Tracker.visit. rewrite Hd, Hv. cbn [Tracker.items]. rewrite Hd.
  rewrite (mapM_Forall2 _ _ (List.map (Tracker.tree_map f) kids)); [reflexivity|].
  apply Forall2_fmap_r.
  pose proof (height_children kids) as Hh.
  assert (Hboth : Forall (fun k =>
            (Tracker.height k <= fuel)%nat /\
            forall c fuel, Tracker.repr lo hi h c k ->
                           (Tracker.height k <= fuel)%nat ->
                           Tracker.visit (fun i => Tracker.Ok (f i)) h
                             (Tracker.items (fun i => Tracker.Ok (f i)) fuel h) c
                           = Tracker.Ok (Tracker.tree_map f k)) kids).
  { apply Forall_and. split; [|exact IH].
    apply (Forall_impl _ _ _ Hh). intros k Hk. lia. }
  apply (Forall2_upgrade _ _ _ _ _ Hboth Hkids).
  intros a b (Hb & IHb) Hab. apply IHb; assumption.
Qed.

Lemma items_repr (lo hi : nat) (h : list (Tracker.Item Info)) (root : nat)
    (d : Tracker.Item Info) (forest : list (Tracker.Tree Info)) (fuel : nat) :
  h !! root = Some d ->
  Forall2 (Tracker.repr lo hi h) (Tracker.items_of d) forest ->
  (foldr Nat.max 0 (List.map Tracker.height forest) < fuel)%nat ->
  Tracker.items (fun i => Tracker.Ok (f i)) fuel h root
  = Tracker.Ok (List.map (Tracker.tree_map f) forest).
Proof.
  intros Hd Hrepr Hfuel. destruct fuel as [|fuel]; [lia|].
  cbn [Tracker.items]. rewrite Hd.
  apply mapM_Forall2, Forall2_fmap_r.
  pose proof (height_children forest) as Hh.
  apply (Forall2_upgrade _ _ _ _ _ Hh Hrepr).
  intros c tree Hheight Hc. apply (visit_repr lo hi); [exact Hc|lia].
Qed.

End TrackerTraversal.

Lemma tree_map_id {V} (t : Tracker.Tree V) : Tracker.tree_map id t = t.
Proof.
  induction t as [v kids IH] using tracker_tree_ind.
  cbn [Tracker.tree_map]. f_equal.
  induction IH as [|k kids Hk _ IHkids]; [reflexivity|].
  cbn [List.map]. rewrite Hk. f_equal. exact IHkids.
Qed.

Lemma forest_map_id {V} (forest : list (Tracker.Tree V)) :
  List.map (Tracker.tree_map id) forest = forest.
Proof.
  induction forest as [|t forest IH]; [reflexivity|].
  cbn [List.map]. rewrite tree_map_id, IH. reflexivity.
Qed.

(** X16.  Recording a forest and reading it back: after the calls [Start],
    children, [End] for each tree in turn on a new tracker, no call has
    failed and [consumed] returns, with enough fuel, the forest itself
    (each info seen through the view); the current item is the root dict
    again, or still [None] if nothing was recorded. *)
Theorem tracker_round_trip {Info V : Type} (f : Info -> V)
    (forest : list (Tracker.Tree Info)) :
  exists (t : Tracker.ValueTracker Info) (fuel : nat),
    Tracker.run (Tracker.record_all forest) Tracker.new = Tracker.Ok t /\
    Tracker._current t = (match forest with [] => None | _ :: _ => Some 0%nat end) /\
    forall fuel', (fuel <= fuel')%nat ->
      Tracker.consumed (fun i => Tracker.Ok (f i)) fuel' t
      = Tracker.Ok (List.map (Tracker.tree_map f) forest) /\
      Tracker.consumed Tracker.Ok fuel' t = Tracker.Ok forest.
Proof.
  destruct (records_every_forest Info forest Tracker.new)
    as (h' & cs & Hrun & _ & _ & Hat & Hrepr); [cbn; lia|].
  specialize (Hat _ eq_refl).
  cbn [Tracker.items_of Tracker.info_of Tracker.parent_of app
       Tracker.attach_point Tracker.new Tracker._current Tracker._items] in Hat.
  eexists _, (S (foldr Nat.max 0%nat (List.map Tracker.height forest))).
  split; [exact Hrun|]. split; [destruct forest; reflexivity|].
  intros fuel' Hfuel. unfold Tracker.consumed.
  cbn [Tracker.heap Tracker._items Tracker.new].
  split.
  - apply (items_repr Info V f _ _ h' 0%nat _ forest fuel' Hat Hrepr). lia.
  - assert (Hf : (foldr Nat.max 0 (List.map Tracker.height forest) < fuel')%nat)
      by lia.
    pose proof (items_repr Info Info id _ _ h' 0%nat _ forest fuel' Hat Hrepr Hf)
      as E.
    rewrite forest_map_id in E. exact E.
Qed.



Section TrackerInvariant.

Variable Info : Type.

Lemma wf_new : Tracker.wf (@Tracker.new Info).
Proof.
  unfold Tracker.wf. cbn [Tracker.new Tracker.heap Tracker._items Tracker._current length].
  split; [lia|]. split; [discriminate|].
  intros [|l] d Hd; [|discriminate]. injection Hd as <-.
  cbn [Tracker.items_of Tracker.parent_of]. split; [constructor|discriminate].
Qed.

Lemma wf_attach_point (t : Tracker.ValueTracker Info) :
  Tracker.wf t -> (Tracker.attach_point t < length (Tracker.heap t))%nat.
Proof.
  intros (H1 & H2 & _). unfold Tracker.attach_point.
  destruct (Tracker._current t) as [c|]; [apply H2; reflexivity|exact H1].
Qed.

Lemma wf_start_item (v : Info) (t : Tracker.ValueTracker Info) :
  Tracker.wf t -> Tracker.wf (Tracker.start_item v t).
Proof.
  intros Hwf. pose proof (wf_attach_point t Hwf) as Hp.
  destruct Hwf as (H1 & H2 & H3).
  set (p := Tracker.attach_point t) in *.
  set (h := Tracker.heap t) in *.
  set (F := fun d : Tracker.Item Info =>
              Tracker.mkItem (Tracker.items_of d ++ [length h])
                (Tracker.info_of d) (Tracker.parent_of d)).
  set (fresh := Tracker.mkItem [] (Some v) (Some p)).
  assert (Hh1 : Tracker.heap (Tracker.start_item v t) = alter F p (h ++ [fresh]))
    by reflexivity.
  assert (Hlen1 : length (Tracker.heap (Tracker.start_item v t)) = S (length h))
    by (rewrite Hh1, length_alter, length_app; cbn [length]; lia).
  assert (Hkeep : forall c dc i,
             h !! c = Some dc -> Tracker.info_of dc = Some i ->
             exists dc', alter F p (h ++ [fresh]) !! c = Some dc' /\
                         Tracker.info_of dc' = Some i).
  { intros c dc i Hc Hi. destruct (decide (c = p)) as [->|Hne].
    - exists (F dc). rewrite list_lookup_alter_eq, lookup_app_l by exact Hp.
      rewrite Hc. split; [reflexivity|exact Hi].
    - exists dc. rewrite list_lookup_alter_ne by congruence.
      rewrite lookup_app_l by (apply lookup_lt_Some in Hc; exact Hc).
      split; assumption. }
  unfold Tracker.wf. rewrite Hlen1, Hh1.
  split; [cbn [Tracker.start_item Tracker._items]; lia|].
  split; [cbn [Tracker.start_item Tracker._current]; intros c [= <-]; fold h; lia|].
  intros l d1 Hl.
  destruct (decide (l = p)) as [->|Hne].
  - rewrite list_lookup_alter_eq, lookup_app_l in Hl by exact Hp.
    destruct (h !! p) as [d|] eqn:Hd; [|discriminate].
    injection Hl as <-. destruct (H3 _ _ Hd) as (Hkids & Hpar).
    cbn [F Tracker.items_of Tracker.parent_of]. split.
    + apply Forall_app. split.
      * apply (Forall_impl _ _ _ Hkids). intros c (Hlt & dc & i & Hc & Hi).
        split; [exact Hlt|]. destruct (Hkeep c dc i Hc Hi) as (dc' & Hc' & Hi').
        exists dc', i. split; assumption.
      * constructor; [|constructor]. split; [exact Hp|].
        exists fresh, v. split; [|reflexivity].
        rewrite list_lookup_alter_ne by lia. apply list_lookup_middle. reflexivity.
    + intros q Hq. specialize (Hpar q Hq). lia.
  - rewrite list_lookup_alter_ne in Hl by congruence.
    apply lookup_app_Some in Hl as [Hl|(Hge & Hl)].
    + destruct (H3 _ _ Hl) as (Hkids & Hpar). split.
      * apply (Forall_impl _ _ _ Hkids). intros c (Hlt & dc & i & Hc & Hi).
        split; [exact Hlt|]. destruct (Hkeep c dc i Hc Hi) as (dc' & Hc' & Hi').
        exists dc', i. split; assumption.
      * intros q Hq. specialize (Hpar q Hq). lia.
    + destruct (l - length h)%nat as [|k] eqn:Hk; [|destruct k; discriminate].
      injection Hl as <-. cbn [fresh Tracker.items_of Tracker.parent_of].
      split; [constructor|]. intros q [= <-]. lia.
Qed.

Lemma wf_end_item (t : Tracker.ValueTracker Info) :
  Tracker.wf t ->
  match Tracker.end_item t with
  | Tracker.Ok t' => Tracker.wf t' /\ Tracker.heap t' = Tracker.heap t
  | Tracker.Fail e => e = Tracker.KeyError "parent"
  end.
Proof.
  intros (H1 & H2 & H3). unfold Tracker.end_item.
  destruct (Tracker._current t) as [c|] eqn:Hc.
  - specialize (H2 c eq_refl).
    destruct (lookup_lt_is_Some_2 _ _ H2) as (d & Hd). rewrite Hd.
    destruct (Tracker.parent_of d) as [p|] eqn:Hpar; [|reflexivity].
    split; [|reflexivity]. unfold Tracker.wf.
    cbn [Tracker.heap Tracker._items Tracker._current].
    split; [exact H1|]. split; [|exact H3].
    intros c' [= <-]. apply (H3 _ _ Hd). exact Hpar.
  - split; [|reflexivity]. unfold Tracker.wf. rewrite Hc.
    split; [exact H1|]. split; [discriminate|exact H3].
Qed.

Lemma wf_run (calls : list (Tracker.Call Info)) (t : Tracker.ValueTracker Info) :
  Tracker.wf t ->
  match Tracker.run calls t with
  | Tracker.Ok t' => Tracker.wf t'
  | Tracker.Fail e => e = Tracker.KeyError "parent"
  end.
Proof.
  revert t. induction calls as [|[item|] calls IH]; intros t Hwf; cbn [Tracker.run].
  - exact Hwf.
  - apply IH, wf_start_item, Hwf.
  - pose proof (wf_end_item t Hwf) as He.
    destruct (Tracker.end_item t) as [t'|e]; [apply IH, He|exact He].
Qed.

Lemma items_total {V} (f : Info -> V) (t : Tracker.ValueTracker Info) :
  Tracker.wf t ->
  forall n l,
    (l < length (Tracker.heap t))%nat ->
    (length (Tracker.heap t) - l <= n)%nat ->
    exists forest,
      Tracker.items (fun i => Tracker.Ok (f i)) n (Tracker.heap t) l
      = Tracker.Ok forest.
Proof.
  intros (_ & _ & H3). induction n as [|n IH]; intros l Hl Hn; [lia|].
  destruct (lookup_lt_is_Some_2 _ _ Hl) as (d & Hd).
  cbn [Tracker.items]. rewrite Hd. apply mapM_Forall.
  destruct (H3 _ _ Hd) as (Hkids & _).
  apply (Forall_impl _ _ _ Hkids). intros c (Hlt & dc & i & Hc & Hi).
  unfold Tracker.visit. rewrite Hc, Hi.
  destruct (IH c) as (kids & Hkidsok);
    [apply lookup_lt_Some in Hc; exact Hc|lia|].
  rewrite Hkidsok. eexists. reflexivity.
Qed.

End TrackerInvariant.


(** ** [ValueTracker.values_from] *)

Example values_from_nothing :
  Tracker.values_from (Tracker.I_dict (<["tag" := 1]> ∅)) [] []
  = Tracker.Ok (Tracker.R_info (Tracker.I_dict (<["tag" := 1]> ∅))).
Proof. reflexivity. Qed.

Example values_from_one_key :
  Tracker.values_from (Tracker.I_dict (<["tag" := 1]> (<["len" := 7]> ∅)))
    ["len"] []
  = Tracker.Ok (Tracker.R_value 7).
Proof. vm_compute. reflexivity. Qed.

Example values_from_two_modifiers :
  Tracker.values_from (Tracker.I_dict (<["tag" := 1]> (<["len" := 7]> ∅)))
    [] [("tag", fun _ _ v => v + 100); ("len", fun _ _ v => v + 200)]
  = Tracker.Ok (Tracker.R_dict (<["tag" := 107]> (<["len" := 207]> ∅))).
Proof. vm_compute. reflexivity. Qed.

Section ValuesFrom.

Variable Val : Type.
Implicit Types (info : Tracker.PyInfo Val) (result : gmap string Val).

Lemma get_value_present info key v :
  Tracker.names_of info !! key = Some v ->
  Tracker.get_value info key = Tracker.Ok v.
Proof. destruct info; cbn; intros ->; reflexivity. Qed.

Lemma get_value_missing info key :
  Tracker.names_of info !! key = None ->
  Tracker.get_value info key = Tracker.Fail (Tracker.missing info key).
Proof. destruct info; cbn; intros ->; reflexivity. Qed.

Lemma gather_present info (ks : list string) result (val : Val) :
  (forall k, k ∈ ks -> is_Some (Tracker.names_of info !! k)) ->
  exists result' val',
    Tracker.gather info ks result val = Tracker.Ok (result', val') /\
    (forall k, result' !! k
               = if decide (k ∈ ks) then Tracker.names_of info !! k
                 else result !! k) /\
    Some val' = match last ks with
                | Some k => Tracker.names_of info !! k
                | None => Some val
                end.
Proof.
  revert result val. induction ks as [|key rest IH]; intros result val Hall.
  - exists result, val. split; [reflexivity|]. split; [|reflexivity].
    intros k. rewrite decide_False by apply not_elem_of_nil. reflexivity.
  - destruct (Hall key) as (v & Hv); [left|].
    cbn [Tracker.gather]. rewrite (get_value_present _ _ _ Hv).
    destruct (IH (<[key := v]> result) v) as (result' & val' & Hrun & Hres & Hval).
    { intros k Hk. apply Hall. right. exact Hk. }
    exists result', val'. split; [exact Hrun|]. split.
    + intros k. rewrite Hres.
      destruct (decide (k ∈ rest)) as [Hin|Hnin].
      * rewrite decide_True by (right; exact Hin). reflexivity.
      * destruct (decide (k = key)) as [->|Hne].
        -- rewrite decide_True by left. rewrite lookup_insert_eq. symmetry. exact Hv.
        -- rewrite decide_False
             by (intros [?|?]%elem_of_cons; [congruence|contradiction]).
           apply lookup_insert_ne. congruence.
    + rewrite last_cons. destruct (last rest); [exact Hval|].
      rewrite Hv. exact Hval.
Qed.

Lemma gather_missing info (pre post : list string) (key : string) result
    (val : Val) :
  (forall k, k ∈ pre -> is_Some (Tracker.names_of info !! k)) ->
  Tracker.names_of info !! key = None ->
  Tracker.gather info (pre ++ key :: post) result val
  = Tracker.Fail (Tracker.missing info key).
Proof.
  revert result val. induction pre as [|k pre IH]; intros result val Hall Hkey.
  - cbn [app Tracker.gather]. rewrite (get_value_missing _ _ Hkey). reflexivity.
  - destruct (Hall k) as (v & Hv); [left|].
    cbn [app Tracker.gather]. rewrite (get_value_present _ _ _ Hv).
    apply IH; [|exact Hkey]. intros k' Hk'. apply Hall. right. exact Hk'.
Qed.

Lemma modify_not_in info (ms : list (string * Tracker.Modifier Val)) (val : Val)
    result (k : string) :
  k ∉ List.map fst ms ->
  Tracker.modify info ms val result !! k = result !! k.
Proof.
  revert result. induction ms as [|[key m] ms IH]; intros result Hk; [reflexivity|].
  cbn [Tracker.modify]. cbn [List.map fst] in Hk.
  rewrite IH by (intros ?; apply Hk; right; assumption).
  apply lookup_insert_ne. intros ->. apply Hk. left.
Qed.

Lemma modify_in info (ms : list (string * Tracker.Modifier Val)) (val : Val)
    result (k : string) (m : Tracker.Modifier Val) :
  NoDup (List.map fst ms) -> (k, m) ∈ ms ->
  Tracker.modify info ms val result !! k = Some (m info k val).
Proof.
  revert result. induction ms as [|[key m'] ms IH]; intros result Hnd Hin.
  - apply elem_of_nil in Hin. contradiction.
  - cbn [List.map fst] in Hnd. apply NoDup_cons in Hnd as (Hfresh & Hnd).
    cbn [Tracker.modify].
    apply elem_of_cons in Hin as [[= -> ->]|Hin].
    + rewrite modify_not_in by exact Hfresh. apply lookup_insert_eq.
    + apply IH; assumption.
Qed.


Lemma values_from_present info (keys : list string)
    (ms : list (string * Tracker.Modifier Val)) :
  keys ++ List.map fst ms <> [] ->
  (forall k, k ∈ keys ++ List.map fst ms ->
             is_Some (Tracker.names_of info !! k)) ->
  exists gathered val klast,
    last (keys ++ List.map fst ms) = Some klast /\
    Tracker.names_of info !! klast = Some val /\
    (forall k, gathered !! k
               = if decide (k ∈ keys ++ List.map fst ms)
                 then Tracker.names_of info !! k else None) /\
    Tracker.values_from info keys ms
    = match ms, keys with
      | [], [key] =>
          Tracker.get_result (Tracker.modify info ms val gathered) key
      | [(key, _)], [] =>
          Tracker.get_result (Tracker.modify info ms val gathered) key
      | _, _ => Tracker.Ok (Tracker.R_dict (Tracker.modify info ms val gathered))
      end.
Proof.
  intros Hne Hall. unfold Tracker.values_from.
  destruct (keys ++ List.map fst ms) as [|first others]; [contradiction|].
  destruct (Hall first) as (v & Hv); [left|].
  rewrite (get_value_present _ _ _ Hv).
  destruct (gather_present info others (<[first := v]> ∅) v)
    as (gathered & val & Hrun & Hres & Hval).
  { intros k Hk. apply Hall. right. exact Hk. }
  rewrite Hrun.
  exists gathered, val, (match last others with Some k => k | None => first end).
  split; [rewrite last_cons; destruct (last others); reflexivity|].
  split; [destruct (last others); [symmetry; exact Hval|congruence]|].
  split; [|reflexivity].
  intros k. rewrite Hres.
  destruct (decide (k ∈ others)) as [Hin|Hnin].
  - rewrite decide_True by (right; exact Hin). reflexivity.
  - destruct (decide (k = first)) as [->|Hne1].
    + rewrite decide_True by left. rewrite lookup_insert_eq. symmetry. exact Hv.
    + rewrite decide_False
        by (intros [?|?]%elem_of_cons; [congruence|contradiction]).
      rewrite lookup_insert_ne by congruence. apply lookup_empty.
Qed.

End ValuesFrom.

(** X19.  With keys and no modifier, and an info that has every key,
    [values_from] returns the value itself for a single key, and for
    several keys the dict that holds exactly those keys with the values the
    info has for them. *)
Theorem values_from_keys {Val : Type} (info : Tracker.PyInfo Val)
    (keys : list string) :
  keys <> [] ->
  (forall k, k ∈ keys -> is_Some (Tracker.names_of info !! k)) ->
  match keys with
  | [key] =>
      exists v, Tracker.names_of info !! key = Some v /\
                Tracker.values_from info keys [] = Tracker.Ok (Tracker.R_value v)
  | _ =>
      exists result,
        Tracker.values_from info keys [] = Tracker.Ok (Tracker.R_dict result) /\
        forall k, result !! k
                  = if decide (k ∈ keys) then Tracker.names_of info !! k else None
  end.
Proof.
  intros Hne Hall.
  destruct (values_from_present Val info keys [])
    as (gathered & val & klast & _ & _ & Hres & Hrun).
  { cbn [List.map]. rewrite app_nil_r. exact Hne. }
  { cbn [List.map]. rewrite app_nil_r. exact Hall. }
  cbn [List.map Tracker.modify] in Hres, Hrun. rewrite app_nil_r in Hres.
  destruct keys as [|key [|key' keys]]; [contradiction| |].
  - destruct (Hall key) as (v & Hv); [left|]. exists v. split; [exact Hv|].
    rewrite Hrun. unfold Tracker.get_result. rewrite Hres.
    rewrite decide_True by left. rewrite Hv. reflexivity.
  - exists gathered. split; assumption.
Qed.

Lemma values_from_keys_witness :
  exists result,
    Tracker.values_from (Tracker.I_object (<["tag" := 1]> (<["len" := 7]> ∅)))
      ["len"; "tag"] []
    = Tracker.Ok (Tracker.R_dict result) /\
    forall k, result !! k
              = if decide (k ∈ ["len"; "tag"])
                then Tracker.names_of
                       (Tracker.I_object (<["tag" := 1]> (<["len" := 7]> ∅))) !! k
                else None.
Proof.
  apply (values_from_keys (Tracker.I_object (<["tag" := 1]> (<["len" := 7]> ∅)))
           ["len"; "tag"]).
  - discriminate.
  - intros k Hk. repeat (apply elem_of_cons in Hk as [->|Hk]);
      [eexists; vm_compute; reflexivity..|].
    apply elem_of_nil in Hk. contradiction.
Defined.



(** X21.  Every modifier is called with the value the first loop read
    last, the one under the name of the last modifier, whatever its own
    name: [result[k]] is [modifier(info, k, info[last])] for each modifier
    [k].  Only the last modifier, and so a modifier given alone, sees the
    value stored under its own name.  Keys that are not modifiers keep the
    value the info has for them. *)
Theorem modifiers_get_the_last_value {Val : Type} (info : Tracker.PyInfo Val)
    (keys : list string) (modifiers : list (string * Tracker.Modifier Val))
    (last_name : string) (last_value : Val) :
  NoDup (List.map fst modifiers) ->
  (forall k, k ∈ keys ++ List.map fst modifiers ->
             is_Some (Tracker.names_of info !! k)) ->
  last (List.map fst modifiers) = Some last_name ->
  Tracker.names_of info !! last_name = Some last_value ->
  exists result,
    (forall k m, (k, m) ∈ modifiers ->
                 result !! k = Some (m info k last_value)) /\
    (forall k, k ∈ keys -> k ∉ List.map fst modifiers ->
               result !! k = Tracker.names_of info !! k) /\
    Tracker.values_from info keys modifiers
    = match modifiers, keys with
      | [(key, m)], [] => Tracker.Ok (Tracker.R_value (m info key last_value))
      | _, _ => Tracker.Ok (Tracker.R_dict result)
      end.
Proof.
  intros Hnd Hall Hlast Hvalue.
  assert (Hms : modifiers <> []) by (intros ->; discriminate).
  destruct (values_from_present Val info keys modifiers)
    as (gathered & val & klast & Hl & Hv & Hres & Hrun).
  { destruct modifiers; [contradiction|]. destruct keys; discriminate. }
  { exact Hall. }
  rewrite last_app, Hlast in Hl. injection Hl as <-.
  rewrite Hvalue in Hv. injection Hv as <-.
  exists (Tracker.modify info modifiers last_value gathered).
  split; [|split].
  - intros k m Hin. apply modify_in; assumption.
  - intros k Hk Hnot. rewrite modify_not_in by exact Hnot.
    rewrite Hres. rewrite decide_True by (apply elem_of_app; left; exact Hk).
    reflexivity.
  - rewrite Hrun.
    destruct modifiers as [|[k1 m1] [|second rest]]; [contradiction| |].
    + destruct keys as [|key keys]; [|reflexivity].
      unfold Tracker.get_result.
      rewrite (modify_in Val info [(k1, m1)] last_value gathered k1 m1 Hnd)
        by (left; reflexivity).
      reflexivity.
    + destruct keys as [|key [|key' keys]]; reflexivity.
Qed.

Lemma modifiers_get_the_last_value_witness :
  exists result,
    (forall k m,
        (k, m) ∈ [("tag", fun _ _ v => v + 100); ("len", fun _ _ v => v + 200)] ->
        result !! k
        = Some (m (Tracker.I_dict (<["tag" := 1]> (<["len" := 7]> ∅))) k 7)) /\
    (forall k, k ∈ @nil string ->
               k ∉ List.map fst
                     [("tag", fun (_ : Tracker.PyInfo Z) (_ : string) v => v + 100);
                      ("len", fun _ _ v => v + 200)] ->
               result !! k
               = Tracker.names_of
                   (Tracker.I_dict (<["tag" := 1]> (<["len" := 7]> ∅))) !! k) /\
    Tracker.values_from (Tracker.I_dict (<["tag" := 1]> (<["len" := 7]> ∅)))
      [] [("tag", fun _ _ v => v + 100); ("len", fun _ _ v => v + 200)]
    = Tracker.Ok (Tracker.R_dict result).
Proof.
  apply (modifiers_get_the_last_value
           (Tracker.I_dict (<["tag" := 1]> (<["len" := 7]> ∅))) []
           [("tag", fun _ _ v => v + 100); ("len", fun _ _ v => v + 200)]
           "len" 7).
  - cbn [List.map fst]. apply NoDup_cons. split; [|apply NoDup_singleton].
    intros Hin. apply elem_of_cons in Hin as [Hin|Hin]; [discriminate|].
    apply elem_of_nil in Hin. contradiction.
  - intros k Hk. cbn in Hk.
    repeat (apply elem_of_cons in Hk as [->|Hk]);
      [eexists; vm_compute; reflexivity..|].
    apply elem_of_nil in Hk. contradiction.
  - reflexivity.
  - vm_compute. reflexivity.
Defined.

(** X22.  [consumed()] with no argument, the whole path through [items]
    and [values_from]: after a forest was recorded on a new tracker, it
    returns that forest with every info handed back as it is. *)
Theorem consumed_without_arguments {Val : Type}
    (forest : list (Tracker.Tree (Tracker.PyInfo Val))) :
  exists (t : Tracker.ValueTracker (Tracker.PyInfo Val)) (fuel : nat),
    Tracker.run (Tracker.record_all forest) Tracker.new = Tracker.Ok t /\
    forall fuel', (fuel <= fuel')%nat ->
      Tracker.consumed (fun info => Tracker.values_from info [] []) fuel' t
      = Tracker.Ok (List.map (Tracker.tree_map Tracker.R_info) forest).
Proof.
  destruct (records_every_forest _ forest Tracker.new)
    as (h' & cs & Hrun & _ & _ & Hat & Hrepr); [cbn; lia|].
  specialize (Hat _ eq_refl).
  cbn [Tracker.items_of Tracker.info_of Tracker.parent_of app
       Tracker.attach_point Tracker.new Tracker._current Tracker._items] in Hat.
  eexists _, (S (foldr Nat.max 0%nat (List.map Tracker.height forest))).
  split; [exact Hrun|].
  intros fuel' Hfuel. unfold Tracker.consumed.
  cbn [Tracker.heap Tracker._items Tracker.new].
  assert (Hf : (foldr Nat.max 0 (List.map Tracker.height forest) < fuel')%nat)
    by lia.
  exact (items_repr _ _ Tracker.R_info _ _ h' 0%nat _ forest fuel' Hat Hrepr Hf).
Qed.

Section TrackerViews.

Variables Info V : Type.
Variable view : Info -> Tracker.Checked V.
Variable f : Info -> V.

Lemma Forall_concat_map {A B} (P : B -> Prop) (g : A -> list B) (l : list A) :
  Forall P (concat (List.map g l)) -> Forall (fun x => Forall P (g x)) l.
Proof.
  induction l as [|a l IH]; intros H; [constructor|].
  cbn [List.map concat] in H. apply Forall_app in H as (Ha & Hl).
  constructor; [exact Ha|apply IH, Hl].
Qed.

Lemma visit_repr_view (lo hi : nat) (h : list (Tracker.Item Info))
    (tree : Tracker.Tree Info) :
  forall c fuel,
    Tracker.repr lo hi h c tree ->
    (Tracker.height tree <= fuel)%nat ->
    Forall (fun i => view i = Tracker.Ok (f i)) (Tracker.values tree) ->
    Tracker.visit view h (Tracker.items view fuel h) c
    = Tracker.Ok (Tracker.tree_map f tree).
Proof.
  induction tree as [v kids IH] using tracker_tree_ind.
  intros c fuel H Hfuel Hview.
  inversion H as [c' d v' kids' Hc Hd Hv Hkids]; subst.
  cbn [Tracker.height] in Hfuel. cbn [Tracker.values] in Hview.
  apply Forall_cons in Hview as (Hhead & Hrest).
  apply Forall_concat_map in Hrest.
  destruct fuel as [|fuel]; [lia|].
  unfold Tracker.visit. rewrite Hd, Hv, Hhead. cbn [Tracker.items]. rewrite Hd.
  rewrite (mapM_Forall2 _ _ (List.map (Tracker.tree_map f) kids)); [reflexivity|].
  apply Forall2_fmap_r.
  pose proof (height_children Info kids) as Hh.
  assert (Hall : Forall (fun k =>
            ((Tracker.height k <= fuel)%nat /\
             Forall (fun i => view i = Tracker.Ok (f i)) (Tracker.values k)) /\
            forall c fuel, Tracker.repr lo hi h c k ->
                           (Tracker.height k <= fuel)%nat ->
                           Forall (fun i => view i = Tracker.Ok (f i))
                             (Tracker.values k) ->
                           Tracker.visit view h (Tracker.items view fuel h) c
                           = Tracker.Ok (Tracker.tree_map f k)) kids).
  { apply Forall_and. split; [|exact IH].
    apply Forall_and. split; [|exact Hrest].
    apply (Forall_impl _ _ _ Hh). intros k Hk. lia. }
  apply (Forall2_upgrade _ _ _ _ _ Hall Hkids).
  intros a b ((Hb & Hvb) & IHb) Hab. apply IHb; assumption.
Qed.

Lemma items_repr_view (lo hi : nat) (h : list (Tracker.Item Info)) (root : nat)
    (d : Tracker.Item Info) (forest : list (Tracker.Tree Info)) (fuel : nat) :
  h !! root = Some d ->
  Forall2 (Tracker.repr lo hi h) (Tracker.items_of d) forest ->
  (foldr Nat.max 0 (List.map Tracker.height forest) < fuel)%nat ->
  Forall (fun t => Forall (fun i => view i = Tracker.Ok (f i)) (Tracker.values t))
    forest ->
  Tracker.items view fuel h root
  = Tracker.Ok (List.map (Tracker.tree_map f) forest).
Proof.
  intros Hd Hrepr Hfuel Hview. destruct fuel as [|fuel]; [lia|].
  cbn [Tracker.items]. rewrite Hd.
  apply mapM_Forall2, Forall2_fmap_r.
  pose proof (height_children Info forest) as Hh.
  assert (Hall : Forall (fun t =>
            (Tracker.height t <= foldr Nat.max 0 (List.map Tracker.height forest))%nat /\
            Forall (fun i => view i = Tracker.Ok (f i)) (Tracker.values t)) forest)
    by (apply Forall_and; split; assumption).
  apply (Forall2_upgrade _ _ _ _ _ Hall Hrepr).
  intros c tree (Hheight & Hv) Hc. apply (visit_repr_view lo hi); [exact Hc|lia|exact Hv].
Qed.

End TrackerViews.

(** X23.  [consumed(key)]: after a forest was recorded on a new tracker,
    and when every info in it has the name [key], [consumed] called with
    that one key returns the same forest with, in place of each info, the
    value the info has under [key]. *)
Theorem consumed_with_one_key {Val : Type}
    (forest : list (Tracker.Tree (Tracker.PyInfo Val))) (key : string)
    (value_of : Tracker.PyInfo Val -> Val) :
  Forall (fun t => Forall (fun info => Tracker.names_of info !! key
                                       = Some (value_of info))
                     (Tracker.values t)) forest ->
  exists (t : Tracker.ValueTracker (Tracker.PyInfo Val)) (fuel : nat),
    Tracker.run (Tracker.record_all forest) Tracker.new = Tracker.Ok t /\
    forall fuel', (fuel <= fuel')%nat ->
      Tracker.consumed (fun info => Tracker.values_from info [key] []) fuel' t
      = Tracker.Ok
          (List.map (Tracker.tree_map (fun info => Tracker.R_value (value_of info)))
             forest).
Proof.
  intros Hkey.
  destruct (records_every_forest _ forest Tracker.new)
    as (h' & cs & Hrun & _ & _ & Hat & Hrepr); [cbn; lia|].
  specialize (Hat _ eq_refl).
  cbn [Tracker.items_of Tracker.info_of Tracker.parent_of app
       Tracker.attach_point Tracker.new Tracker._current Tracker._items] in Hat.
  eexists _, (S (foldr Nat.max 0%nat (List.map Tracker.height forest))).
  split; [exact Hrun|].
  intros fuel' Hfuel. unfold Tracker.consumed.
  cbn [Tracker.heap Tracker._items Tracker.new].
  apply (items_repr_view _ _ _ _ _ _ h' 0%nat _ forest fuel' Hat Hrepr); [lia|].
  apply (Forall_impl _ _ _ Hkey). intros t Ht.
  apply (Forall_impl _ _ _ Ht). intros info Hinfo.
  unfold Tracker.values_from. cbn [app List.map].
  rewrite (get_value_present _ _ _ _ Hinfo). cbn [Tracker.gather Tracker.modify].
  unfold Tracker.get_result. rewrite lookup_insert_eq. reflexivity.
Qed.

Lemma consumed_with_one_key_witness :
  exists (t : Tracker.ValueTracker (Tracker.PyInfo Z)) (fuel : nat),
    Tracker.run
      (Tracker.record_all
         [Tracker.Node (Tracker.I_dict (<["tag" := 1]> ∅))
            [Tracker.Node (Tracker.I_object (<["tag" := 2]> ∅)) []]])
      Tracker.new = Tracker.Ok t /\
    forall fuel', (fuel <= fuel')%nat ->
      Tracker.consumed (fun info => Tracker.values_from info ["tag"] []) fuel' t
      = Tracker.Ok
          (List.map
             (Tracker.tree_map
                (fun info => Tracker.R_value
                               (default 0 (Tracker.names_of info !! "tag"))))
             [Tracker.Node (Tracker.I_dict (<["tag" := 1]> ∅))
                [Tracker.Node (Tracker.I_object (<["tag" := 2]> ∅)) []]]).
Proof.
  apply (consumed_with_one_key
           [Tracker.Node (Tracker.I_dict (<["tag" := 1]> ∅))
              [Tracker.Node (Tracker.I_object (<["tag" := 2]> ∅)) []]]
           "tag" (fun info => default 0 (Tracker.names_of info !! "tag"))).
  repeat constructor.
Defined.
